(** * Layered configuration loading: [kedro.config.omegaconf_config]

    A shallow embedding of [OmegaConfLoader] (src/kedro/config/omegaconf_config.py)
    and the properties of its lookup pipeline: per-directory loading,
    duplicate-key detection, per-directory merge and the base/environment
    composition.

    Conventions of the embedding.
    - A configuration tree (a Python [dict] or an OmegaConf [DictConfig]) is a
      finite map from top-level keys to values, [gmap string Value].  Python's
      [==] on dicts ignores insertion order, and so does equality of [gmap]s.
    - A Python [dict] that is iterated (the per-file table built while
      loading) is an association list in insertion order.
    - A Python [set] is a [gset]; the order in which it is iterated is not
      fixed by the language and is a parameter of the world.
    - The collaborators outside the module ([pathlib], [glob], [OmegaConf.load])
      are the fields of a [World]; every call to them is recorded as an
      [Event], so that "before touching the filesystem" is a statement about
      the trace of a computation.
    - Exceptions are values of [Exn]; a computation is a trace together with
      either an exception or a result.
    - A string is a sequence of 8-bit characters; on ASCII text [len],
      slices and [sorted] are those of Python's [str]. *)

From stdpp Require Import gmap strings list fin_maps fin_sets sorting pretty.

Set Warnings "-register-all".
Local Open Scope string_scope.
Local Open Scope list_scope.
Local Open Scope stdpp_scope.

(** ** Strings *)

(** The line feed used by ["\n".join(...)]. *)
Definition newline : string := String (Ascii.ascii_of_nat 10) EmptyString.

(** [sep.join(items)]. *)
Definition join (sep : string) (items : list string) : string :=
  String.concat sep items.

(** [s[:n]]. *)
Definition str_prefix (n : nat) (s : string) : string := String.substring 0 n s.

(** The order of [sorted] on [str]: code point by code point. *)
Definition str_le (a b : string) : Prop := String.leb a b = true.

Global Instance str_le_dec a b : Decision (str_le a b).
Proof. unfold str_le. apply _. Defined.

(** [sorted(keys)] for a set of strings. *)
Definition sorted (keys : gset string) : list string :=
  merge_sort str_le (elements keys).

(** [repr] of a string without quotes, backslashes or control characters,
    and of a list of such strings, as an f-string prints [[*patterns]]. *)
Definition repr_str (s : string) : string := "'" +:+ s +:+ "'".
Definition repr_list (l : list string) : string :=
  "[" +:+ join ", " (repr_str <$> l) +:+ "]".

(** ** Configuration trees *)

Inductive Value :=
  | VInt (n : Z)
  | VStr (s : string)
  | VList (items : list Value)
  | VDict (d : gmap string Value).

Abbreviation Tree := (gmap string Value).

(** [OmegaConf.merge] on two nodes: dictionaries are combined key by key,
    recursively; anything else is replaced by the right-hand node. *)
Fixpoint merge_value (u v : Value) {struct u} : Value :=
  match u, v with
  | VDict a, VDict b => VDict (union_with (λ x y, Some (merge_value x y)) a b)
  | _, _ => v
  end.

Definition merge_tree (a b : Tree) : Tree :=
  union_with (λ x y, Some (merge_value x y)) a b.

(** [OmegaConf.merge] of several trees: the first tree, with the others
    merged in from left to right. *)
Definition OmegaConf_merge (configs : list Tree) : Tree :=
  match configs with
  | [] => ∅
  | c :: cs => foldl merge_tree c cs
  end.

(** ** Insertion-ordered dictionaries *)

Section ordered_dict.
Context {K V : Type} `{EqDecision K}.

(** [d[k]] *)
Fixpoint dict_get (k : K) (d : list (K * V)) : option V :=
  match d with
  | [] => None
  | (k', v) :: d' => if decide (k = k') then Some v else dict_get k d'
  end.

(** [d[k] = v]: an existing key keeps its position, a new one goes last. *)
Fixpoint dict_set (k : K) (v : V) (d : list (K * V)) : list (K * V) :=
  match d with
  | [] => [(k, v)]
  | (k', v') :: d' =>
      if decide (k = k') then (k, v) :: d' else (k', v') :: dict_set k v d'
  end.
End ordered_dict.

(** ** Exceptions, events and computations *)

Inductive Exn :=
  | KeyError (msg : string)
  | MissingConfigException (msg : string)
  | ValueError (msg : string)
  | ParserError (msg : string).

Inductive Event :=
  | EvIsDir (path : string)
  | EvGlob (pattern : string)
  | EvResolve (path : string)
  | EvIsFile (path : string)
  | EvLoad (path : string)
  | EvMerge (count : nat)
  | EvDebug (msg : string).

Definition M (A : Type) : Type := list Event * (Exn + A).

Global Instance M_ret : MRet M := λ A x, ([], inr x).
Global Instance M_bind : MBind M := λ A B f m,
  match m with
  | (tr, inl e) => (tr, inl e)
  | (tr, inr x) => let '(tr', r) := f x in (tr ++ tr', r)
  end.

Definition raise {A} (e : Exn) : M A := ([], inl e).
Definition emit (ev : Event) : M unit := ([ev], inr ()).

Definition trace {A} (m : M A) : list Event := m.1.
Definition outcome {A} (m : M A) : Exn + A := m.2.

(** [for x in xs: acc = body(acc, x)] with exceptions leaving the loop. *)
Fixpoint foldM {A B} (body : A → B → M A) (acc : A) (xs : list B) : M A :=
  match xs with
  | [] => mret acc
  | x :: xs' => acc' ← body acc x; foldM body acc' xs'
  end.

(** ** The world outside the module *)

(** The position a YAML error carries ([exc.problem_mark]): PyYAML counts
    both [line] and [column] from zero. *)
Record Mark := { line : nat; column : nat }.

Inductive LoadResult :=
  | Parsed (config : Tree)
  | YamlError (problem_mark : Mark).

Record World := {
  (** [str(Path(a) / b)] *)
  joinpath : string → string → string;
  (** [Path(p).is_dir()] *)
  is_dir : string → bool;
  (** [iglob(pattern, recursive=True)], in the order the filesystem lists. *)
  iglob : string → list string;
  (** [Path(p).resolve()] *)
  resolve : string → string;
  (** [path.is_file()] *)
  is_file : string → bool;
  (** [path.suffix] *)
  suffix : string → string;
  (** [OmegaConf.load(path)]: a tree, or a [ParserError]/[ScannerError]. *)
  load : string → LoadResult;
  (** The order in which a [set] of paths is iterated. *)
  set_iter : gset string → list string;
}.

(** A set is iterated element by element, each element once. *)
Definition set_iter_ok (w : World) : Prop :=
  ∀ s : gset string, set_iter w s ≡ₚ elements s.

(** ** The loader *)

Record OmegaConfLoader := {
  conf_source : string;
  env : option string;
  base_env : string;
  default_run_env : string;
  config_patterns : gmap string (list string);
  (** The values the caller assigned directly on the loader instance. *)
  data : gmap string Tree;
}.

(** Modelled from the spec: the dictionary facade of the parent class
    [AbstractConfigLoader], which is not in the source file.  [key in self]
    holds exactly when the caller has assigned a value for [key] on the
    loader instance, and [super().__getitem__(key)] is then that value. *)
Definition preset_value (self : OmegaConfLoader) (key : string) : option Tree :=
  data self !! key.

Definition default_patterns : gmap string (list string) :=
  {[ "catalog" := ["catalog*"; "catalog*/**"; "**/catalog*"];
     "parameters" := ["parameters*"; "parameters*/**"; "**/parameters*"];
     "credentials" := ["credentials*"; "credentials*/**"; "**/credentials*"];
     "logging" := ["logging*"; "logging*/**"; "**/logging*"] ]}.

(** [OmegaConfLoader(conf_source, env, config_patterns=..., base_env=...,
    default_run_env=...)]; [d.update(e)] on a dict is [e ∪ d]. *)
Definition __init__ (conf_source : string) (env : option string)
    (config_patterns : option (gmap string (list string)))
    (base_env default_run_env : string) : OmegaConfLoader :=
  {| conf_source := conf_source;
     env := env;
     base_env := base_env;
     default_run_env := default_run_env;
     config_patterns := default (∅ : gmap string (list string)) config_patterns ∪ default_patterns;
     data := ∅ |}.

(** Modelled from the spec: [self[key] = value] as the caller does it on the
    loader instance, through the same facade. *)
Definition __setitem__ (self : OmegaConfLoader) (key : string) (value : Tree)
    : OmegaConfLoader :=
  {| conf_source := conf_source self;
     env := env self;
     base_env := base_env self;
     default_run_env := default_run_env self;
     config_patterns := config_patterns self;
     data := <[key := value]> (data self) |}.

(** [self.env or self.default_run_env] *)
Definition run_env (self : OmegaConfLoader) : string :=
  match env self with
  | Some (String c s) => String c s
  | _ => default_run_env self
  end.

(** ** [_is_valid_config_path] *)

Definition _is_valid_config_path (w : World) (path : string) : M bool :=
  _ ← emit (EvIsFile path);
  mret (is_file w path && bool_decide (suffix w path ∈ [".yml"; ".yaml"; ".json"])).

(** ** [_check_duplicates] *)

(** The text after the colon: the overlapping keys, sorted and joined, cut
    to 100 characters plus an ellipsis when longer. *)
Definition overlap_text (overlapping_keys : gset string) : string :=
  let sorted_keys := join ", " (sorted overlapping_keys) in
  if decide (100 < String.length sorted_keys)
  then str_prefix 100 sorted_keys +:+ "..."
  else sorted_keys.

Definition duplicate_message (filepath1 filepath2 : string)
    (overlapping_keys : gset string) : string :=
  "Duplicate keys found in " +:+ filepath1 +:+ " and " +:+ filepath2 +:+ ": "
    +:+ overlap_text overlapping_keys.

(** The list [duplicates] after the two nested loops: [filepath1] runs over
    the files with its position counted from one, [filepath2] over the files
    behind that position. *)
Definition collect_duplicates (seen_files_to_keys : list (string * gset string))
    : list string :=
  let filepaths := seen_files_to_keys.*1 in
  zip (seq 1 (length filepaths)) filepaths ≫= λ '(i, filepath1),
    let config1 := default ∅ (dict_get filepath1 seen_files_to_keys) in
    drop i filepaths ≫= λ filepath2,
      let config2 := default ∅ (dict_get filepath2 seen_files_to_keys) in
      let overlapping_keys := config1 ∩ config2 in
      if decide (overlapping_keys ≠ ∅)
      then [duplicate_message filepath1 filepath2 overlapping_keys]
      else [].

Definition _check_duplicates (seen_files_to_keys : list (string * gset string))
    : M unit :=
  let duplicates := collect_duplicates seen_files_to_keys in
  match duplicates with
  | [] => mret ()
  | _ => raise (ValueError (join newline duplicates))
  end.

(** ** [load_and_merge_dir_config] *)

Definition missing_path_message (conf_path : string) : string :=
  "Given configuration path either does not exist or is not a valid directory: "
    +:+ conf_path.

Definition parse_error_message (config_filepath : string) (mark : Mark) : string :=
  "Invalid YAML or JSON file " +:+ config_filepath +:+ ", unable to read line "
    +:+ pretty (line mark) +:+ ", position " +:+ pretty (column mark) +:+ ".".

(** The comprehension building [paths]: every pattern is expanded under the
    directory and every match resolved. *)
Definition expand_patterns (w : World) (conf_path : string)
    (patterns : list string) : M (list string) :=
  foldM (λ paths pattern,
    let full := conf_path +:+ "/" +:+ pattern in
    _ ← emit (EvGlob full);
    foldM (λ paths each,
      _ ← emit (EvResolve each);
      mret (paths ++ [resolve w each])) paths (iglob w full))
    [] patterns.

(** The comprehension building [config_files_filtered]. *)
Definition filter_valid (w : World) (paths : list string) : M (list string) :=
  foldM (λ kept path,
    ok ← _is_valid_config_path w path;
    mret (if ok : bool then kept ++ [path] else kept))
    [] paths.

(** One turn of the loop filling [config_per_file]. *)
Definition load_step (w : World) (config_per_file : list (string * Tree))
    (config_filepath : string) : M (list (string * Tree)) :=
  _ ← emit (EvLoad config_filepath);
  match load w config_filepath with
  | Parsed config => mret (dict_set config_filepath config config_per_file)
  | YamlError mark =>
      raise (ParserError (parse_error_message config_filepath mark))
  end.

Definition load_files (w : World) (files : list string)
    : M (list (string * Tree)) :=
  foldM (load_step w) [] files.

Definition load_and_merge_dir_config (w : World) (conf_path : string)
    (patterns : list string) : M Tree :=
  _ ← emit (EvIsDir conf_path);
  if negb (is_dir w conf_path)
  then raise (MissingConfigException (missing_path_message conf_path))
  else
    paths ← expand_patterns w conf_path patterns;
    let deduplicated_paths : gset string := list_to_set paths in
    config_files_filtered ← filter_valid w (set_iter w deduplicated_paths);
    config_per_file ← load_files w config_files_filtered;
    let seen_file_to_keys := (λ fc, (fc.1, dom fc.2)) <$> config_per_file in
    let aggregate_config := config_per_file.*2 in
    _ ← _check_duplicates seen_file_to_keys;
    match aggregate_config with
    | [] => mret ∅
    | [config] => mret config
    | _ =>
        _ ← emit (EvMerge (length aggregate_config));
        mret (OmegaConf_merge aggregate_config)
    end.

(** ** [__getitem__] *)

Definition unknown_key_message (key : string) : string :=
  "No config patterns were found for '" +:+ key +:+ "' in your config loader".

Definition override_message (env_path : string) (common_keys : gset string)
    : string :=
  "Config from path '" +:+ env_path +:+ "' will override the following "
    +:+ "existing top-level config keys: " +:+ join ", " (sorted common_keys).

Definition missing_config_message (base_path env_path : string)
    (patterns : list string) : string :=
  "No files of YAML or JSON format found in " +:+ base_path +:+ " or "
    +:+ env_path +:+ " matching the glob pattern(s): " +:+ repr_list patterns.

(** [config.update(env_config)] *)
Definition update (config env_config : Tree) : Tree := env_config ∪ config.

Definition __getitem__ (w : World) (self : OmegaConfLoader) (key : string)
    : M Tree :=
  match preset_value self key with
  | Some value => mret value
  | None =>
      match config_patterns self !! key with
      | None => raise (KeyError (unknown_key_message key))
      | Some patterns =>
          let base_path := joinpath w (conf_source self) (base_env self) in
          base_config ← load_and_merge_dir_config w base_path patterns;
          let config := base_config in
          let env_path := joinpath w (conf_source self) (run_env self) in
          env_config ← load_and_merge_dir_config w env_path patterns;
          let common_keys := dom config ∩ dom env_config in
          _ ← (if decide (common_keys ≠ ∅)
               then emit (EvDebug (override_message env_path common_keys))
               else mret ());
          let config := update config env_config in
          if decide (config = ∅)
          then raise (MissingConfigException
                        (missing_config_message base_path env_path patterns))
          else mret config
      end
  end.

(** ** Concrete worlds

    A world given by tables: the directories that exist, what each glob
    expression lists, and for every regular file its suffix and what loading
    it gives.  Paths are joined with a slash, already absolute, and a set is
    iterated in the order of [elements]. *)

Record FileEntry := {
  fe_path : string;
  fe_suffix : string;
  fe_load : LoadResult;
}.

Definition find_file (p : string) (files : list FileEntry) : option FileEntry :=
  snd <$> list_find (λ f, fe_path f = p) files.

Definition table_world (dirs : list string)
    (globs : list (string * list string)) (files : list FileEntry)
    (order : gset string → list string) : World :=
  {| joinpath a b := a +:+ "/" +:+ b;
     is_dir p := bool_decide (p ∈ dirs);
     iglob pat := default [] (dict_get pat globs);
     resolve p := p;
     is_file p := bool_decide (p ∈ fe_path <$> files);
     suffix p := default EmptyString (fe_suffix <$> find_file p files);
     load p := default (Parsed ∅) (fe_load <$> find_file p files);
     set_iter := order |}.

(** ** Notions used in the statements *)

(** What the patterns expand to, in listing order. *)
Definition candidates (w : World) (conf_path : string) (patterns : list string)
    : list string :=
  patterns ≫= λ pattern, resolve w <$> iglob w (conf_path +:+ "/" +:+ pattern).

Definition expand_trace (w : World) (conf_path : string)
    (patterns : list string) : list Event :=
  patterns ≫= λ pattern,
    EvGlob (conf_path +:+ "/" +:+ pattern)
      :: (EvResolve <$> iglob w (conf_path +:+ "/" +:+ pattern)).

Definition valid_path (w : World) (path : string) : bool :=
  is_file w path && bool_decide (suffix w path ∈ [".yml"; ".yaml"; ".json"]).

(** The value of [config_files_filtered]. *)
Definition config_files (w : World) (conf_path : string)
    (patterns : list string) : list string :=
  filter (valid_path w)
    (set_iter w (list_to_set (candidates w conf_path patterns))).

(** The trees the files hold, when all of them parse. *)
Definition all_parsed (w : World) (files : list string) (trees : list Tree)
    : Prop :=
  load w <$> files = Parsed <$> trees.

(** Every unordered pair of distinct positions of a list, the element of the
    earlier position first. *)
Fixpoint all_pairs {A} (l : list A) : list (A * A) :=
  match l with
  | [] => []
  | x :: rest => (pair x <$> rest) ++ all_pairs rest
  end.

(** What one pair of files contributes to the report: a message when their
    key sets intersect, nothing otherwise. *)
Definition pair_report (p : (string * gset string) * (string * gset string))
    : list string :=
  let overlapping_keys := p.1.2 ∩ p.2.2 in
  if decide (overlapping_keys ≠ ∅)
  then [duplicate_message p.1.1 p.2.1 overlapping_keys]
  else [].

(** The messages of all offending pairs. *)
Definition duplicate_report (seen : list (string * gset string)) : list string :=
  all_pairs seen ≫= pair_report.

(** The keys recorded for each loaded file. *)
Definition keys_of (config_per_file : list (string * Tree))
    : list (string * gset string) :=
  (λ fc, (fc.1, dom fc.2)) <$> config_per_file.

(** The events of a directory scan up to the point where files are loaded. *)
Definition scan_trace (w : World) (conf_path : string) (patterns : list string)
    : list Event :=
  EvIsDir conf_path :: expand_trace w conf_path patterns
    ++ (EvIsFile <$> set_iter w (list_to_set (candidates w conf_path patterns))).

Definition base_path (w : World) (self : OmegaConfLoader) : string :=
  joinpath w (conf_source self) (base_env self).

Definition env_path (w : World) (self : OmegaConfLoader) : string :=
  joinpath w (conf_source self) (run_env self).

(** The debug record of the override, when there is one. *)
Definition override_trace (env_path : string) (config env_config : Tree)
    : list Event :=
  if decide (dom config ∩ dom env_config ≠ ∅)
  then [EvDebug (override_message env_path (dom config ∩ dom env_config))]
  else [].

(** The directories a lookup gets to load: the base directory, and the
    environment directory once the base directory has loaded. *)
Definition reached (w : World) (self : OmegaConfLoader)
    (patterns : list string) (conf_path : string) : Prop :=
  conf_path = base_path w self
  ∨ (conf_path = env_path w self
     ∧ ∃ base_config,
         outcome (load_and_merge_dir_config w (base_path w self) patterns)
         = inr base_config).

(** [needle in hay] *)
Definition mentions (needle hay : string) : bool :=
  match String.index 0 needle hay with
  | Some _ => true
  | None => false
  end.

(** A message that states the position of [mark] counted from one contains
    at least the decimal numerals of that line and that column. *)
Definition states_one_based_position (msg : string) (mark : Mark) : Prop :=
  mentions (pretty (S (line mark))) msg = true
  ∧ mentions (pretty (S (column mark))) msg = true.

(** Two worlds over the same files: they agree on everything except the
    order in which a glob lists its matches and a set is iterated. *)
Definition same_filesystem (w1 w2 : World) : Prop :=
  (∀ a b, joinpath w1 a b = joinpath w2 a b)
  ∧ (∀ p, is_dir w1 p = is_dir w2 p)
  ∧ (∀ pattern, iglob w1 pattern ≡ₚ iglob w2 pattern)
  ∧ (∀ p, resolve w1 p = resolve w2 p)
  ∧ (∀ p, is_file w1 p = is_file w2 p)
  ∧ (∀ p, suffix w1 p = suffix w2 p)
  ∧ (∀ p, load w1 p = load w2 p).

(** The paths handed to [OmegaConf.load] in the course of a computation,
    in order. *)
Definition loads (tr : list Event) : list string :=
  omap (λ ev, match ev with EvLoad path => Some path | _ => None end) tr.

(** The exceptions a directory load or a lookup can end in, by class. *)
Definition is_key_error (r : Exn + Tree) : Prop :=
  ∃ msg, r = inl (KeyError msg).

(** ** Example projects *)

Definition yml (path : string) (cfg : Tree) : FileEntry :=
  {| fe_path := path; fe_suffix := ".yml"; fe_load := Parsed cfg |}.

Definition broken_yml (path : string) (l c : nat) : FileEntry :=
  {| fe_path := path; fe_suffix := ".yml";
     fe_load := YamlError {| line := l; column := c |} |}.

(** [conf/base/catalog.yml] holds [{a: 1, b: 2}] and
    [conf/local/catalog.yml] holds [{b: 3, c: 4}]. *)
Definition layered_world : World :=
  table_world ["conf/base"; "conf/local"]
    [("conf/base/catalog*", ["conf/base/catalog.yml"]);
     ("conf/base/**/catalog*", ["conf/base/catalog.yml"]);
     ("conf/local/catalog*", ["conf/local/catalog.yml"]);
     ("conf/local/**/catalog*", ["conf/local/catalog.yml"])]
    [yml "conf/base/catalog.yml" {[ "a" := VInt 1; "b" := VInt 2 ]};
     yml "conf/local/catalog.yml" {[ "b" := VInt 3; "c" := VInt 4 ]}]
    elements.

(** Both directories exist and hold nothing that matches. *)
Definition empty_world : World :=
  table_world ["conf/base"; "conf/local"] [] [] elements.

(** Only [conf/local] exists, and it holds a catalog. *)
Definition no_base_world : World :=
  table_world ["conf/local"]
    [("conf/local/catalog*", ["conf/local/catalog.yml"])]
    [yml "conf/local/catalog.yml" {[ "b" := VInt 3 ]}]
    elements.


(** The loader of the class docstring, and one with a key whose pattern
    list is empty. *)
Definition project_loader : OmegaConfLoader :=
  __init__ "conf" None None "base" "local".

Definition spark_loader : OmegaConfLoader :=
  __init__ "conf" None (Some {[ "spark" := [] ]}) "base" "local".

(** [conf/base] holds two catalogs with disjoint top-level keys. *)
Definition split_files : list FileEntry :=
  [yml "conf/base/catalog_a.yml" {[ "a" := VInt 1 ]};
   yml "conf/base/catalog_b.yml" {[ "b" := VDict {[ "x" := VInt 2 ]} ]}].

Definition split_globs : list (string * list string) :=
  [("conf/base/catalog*",
    ["conf/base/catalog_a.yml"; "conf/base/catalog_b.yml"])].

Definition split_world : World :=
  table_world ["conf/base"; "conf/local"] split_globs split_files elements.

(** The same project on a system that lists and iterates the other way
    round. *)
Definition split_world_reversed : World :=
  table_world ["conf/base"; "conf/local"]
    [("conf/base/catalog*",
      ["conf/base/catalog_b.yml"; "conf/base/catalog_a.yml"])]
    split_files (λ s, reverse (elements s)).


Definition long_keys : gset string :=
  {[ "aaaaaaaaaaaaaaaaaaaaaaaaaaaaaaaaaaaaaaaaaaaaaaaaaaaaaaaaaaaa";
     "bbbbbbbbbbbbbbbbbbbbbbbbbbbbbbbbbbbbbbbbbbbbbbbbbbbbbbbbbbbbbbbbb"; "Z" ]}.

(** [conf/base/catalog.yml] does not parse: the engine reports the error on
    the first line, fifth character, that is mark line 0, column 4. *)
Definition malformed_world : World :=
  table_world ["conf/base"; "conf/local"]
    [("conf/base/catalog*", ["conf/base/catalog.yml"])]
    [broken_yml "conf/base/catalog.yml" 0 4]
    elements.

(** [conf/base] holds a catalog, a text file and a sub-directory that all
    match the catalog patterns; the catalog matches two of them. *)
Definition mixed_world : World :=
  table_world ["conf/base"; "conf/local"; "conf/base/catalog_dir"]
    [("conf/base/catalog*",
      ["conf/base/catalog.yml"; "conf/base/catalog.txt";
       "conf/base/catalog_dir"]);
     ("conf/base/**/catalog*",
      ["conf/base/catalog.yml"; "conf/base/catalog.txt";
       "conf/base/catalog_dir"])]
    [yml "conf/base/catalog.yml" {[ "a" := VInt 1 ]};
     {| fe_path := "conf/base/catalog.txt"; fe_suffix := ".txt";
        fe_load := Parsed {[ "t" := VInt 0 ]} |}]
    elements.

(** [conf/base] holds three catalogs, iterated in the order c, a, b; the
    second one in that order does not parse. *)
Definition half_broken_world : World :=
  table_world ["conf/base"; "conf/local"]
    [("conf/base/catalog*",
      ["conf/base/catalog_a.yml"; "conf/base/catalog_b.yml";
       "conf/base/catalog_c.yml"])]
    [broken_yml "conf/base/catalog_a.yml" 3 0;
     yml "conf/base/catalog_b.yml" {[ "b" := VInt 2 ]};
     yml "conf/base/catalog_c.yml" {[ "c" := VInt 2 ]}]
    elements.

(** * Properties *)

Global Instance str_le_total : Total str_le.
Proof. intros a b. apply String.leb_total. Qed.

(** ** Computations *)

Lemma bind_unfold {A B} (m : M A) (f : A → M B) :
  m ≫= f = match m.2 with
           | inl e => (m.1, inl e)
           | inr x => (m.1 ++ (f x).1, (f x).2)
           end.
Proof. destruct m as [tr [e|x]]; simpl; [done|]. by destruct (f x). Qed.

Lemma bind_raises {A B} (m : M A) (f : A → M B) e :
  outcome m = inl e → m ≫= f = (trace m, inl e).
Proof. rewrite bind_unfold. unfold outcome, trace. by intros ->. Qed.

Lemma bind_returns {A B} (m : M A) (f : A → M B) x :
  outcome m = inr x → m ≫= f = (trace m ++ trace (f x), outcome (f x)).
Proof. rewrite bind_unfold. unfold outcome, trace. by intros ->. Qed.

Lemma bind_pure {A B} tr (x : A) (f : A → M B) :
  (tr, inr x) ≫= f = (tr ++ trace (f x), outcome (f x)).
Proof. by rewrite bind_unfold. Qed.

(** A loop whose body never raises is a left fold, and its trace is the
    concatenation of the traces of the iterations. *)
Lemma foldM_pure {A B} (body : A → B → M A) (ev : B → list Event)
    (g : A → B → A) (acc : A) (xs : list B) :
  (∀ a x, body a x = (ev x, inr (g a x))) →
  foldM body acc xs = (xs ≫= ev, inr (foldl g acc xs)).
Proof.
  intros Hbody. revert acc.
  induction xs as [|x xs IH]; intros acc; [done|].
  cbn [foldM]. rewrite Hbody, bind_pure, IH. done.
Qed.

Lemma bind_singleton_fmap {A B} (f : A → B) (xs : list A) :
  xs ≫= (λ x, [f x]) = f <$> xs.
Proof. induction xs as [|x xs IH]; [done|]. by rewrite bind_cons, IH. Qed.

Lemma foldl_snoc_fmap {A B} (f : B → A) (acc : list A) (xs : list B) :
  foldl (λ a x, a ++ [f x]) acc xs = acc ++ (f <$> xs).
Proof.
  revert acc. induction xs as [|x xs IH]; intros acc; simpl.
  - by rewrite app_nil_r.
  - by rewrite IH, <-app_assoc.
Qed.

Lemma foldl_app_bind {A B} (f : B → list A) (acc : list A) (xs : list B) :
  foldl (λ a x, a ++ f x) acc xs = acc ++ (xs ≫= f).
Proof.
  revert acc. induction xs as [|x xs IH]; intros acc; simpl.
  - by rewrite app_nil_r.
  - by rewrite IH, <-app_assoc.
Qed.

Lemma foldl_snoc_filter {A} (P : A → bool) (acc : list A) (xs : list A) :
  foldl (λ a x, if P x then a ++ [x] else a) acc xs = acc ++ filter P xs.
Proof.
  revert acc. induction xs as [|x xs IH]; intros acc; simpl.
  - by rewrite app_nil_r.
  - rewrite IH. destruct (P x) eqn:HP.
    + rewrite filter_cons_True by (by rewrite HP). by rewrite <-app_assoc.
    + rewrite filter_cons_False by (rewrite HP; by intros []). done.
Qed.

(** ** The stages of [load_and_merge_dir_config] *)

Lemma expand_patterns_eq w conf_path patterns :
  expand_patterns w conf_path patterns
  = (expand_trace w conf_path patterns, inr (candidates w conf_path patterns)).
Proof.
  unfold expand_patterns, candidates, expand_trace.
  erewrite (foldM_pure _
    (λ pattern, EvGlob (conf_path +:+ "/" +:+ pattern)
       :: (EvResolve <$> iglob w (conf_path +:+ "/" +:+ pattern)))
    (λ paths pattern,
       paths ++ (resolve w <$> iglob w (conf_path +:+ "/" +:+ pattern)))).
  - by rewrite foldl_app_bind.
  - intros paths pattern.
    erewrite (foldM_pure _ (λ each, [EvResolve each])
                (λ paths each, paths ++ [resolve w each])) by done.
    rewrite foldl_snoc_fmap. unfold emit. rewrite bind_pure. simpl.
    by rewrite bind_singleton_fmap.
Qed.

Lemma filter_valid_eq w paths :
  filter_valid w paths = (EvIsFile <$> paths, inr (filter (valid_path w) paths)).
Proof.
  unfold filter_valid.
  erewrite (foldM_pure _ (λ path, [EvIsFile path])
              (λ kept path, if valid_path w path then kept ++ [path] else kept))
    by done.
  rewrite foldl_snoc_filter. simpl. by rewrite bind_singleton_fmap.
Qed.

(** ** Ordered dictionaries with distinct keys *)

Lemma dict_set_fresh {K V} `{EqDecision K} (k : K) (v : V) (d : list (K * V)) :
  k ∉ d.*1 → dict_set k v d = d ++ [(k, v)].
Proof.
  induction d as [|[k' v'] d IH]; intros Hk; simpl; [done|].
  rewrite fmap_cons in Hk. apply not_elem_of_cons in Hk as [Hne Hk].
  rewrite decide_False by done. by rewrite IH.
Qed.

Lemma dict_get_elem_of {K V} `{EqDecision K} (k : K) (v : V) (d : list (K * V)) :
  NoDup d.*1 → (k, v) ∈ d → dict_get k d = Some v.
Proof.
  induction d as [|[k' v'] d IH]; intros Hnd Hin; [by apply elem_of_nil in Hin|].
  rewrite fmap_cons in Hnd. apply NoDup_cons in Hnd as [Hk' Hnd].
  apply elem_of_cons in Hin as [Heq|Hin]; simpl.
  - injection Heq as -> ->. by rewrite decide_True.
  - rewrite decide_False; [by apply IH|].
    intros ->. apply Hk'. apply list_elem_of_fmap. by exists (k', v).
Qed.

(** ** Loading the files of a directory *)

Lemma all_parsed_cons_inv w f files trees :
  all_parsed w (f :: files) trees →
  ∃ t trees', trees = t :: trees' ∧ load w f = Parsed t ∧ all_parsed w files trees'.
Proof.
  unfold all_parsed. destruct trees as [|t trees']; simpl; [done|].
  intros [= H1 H2]. by exists t, trees'.
Qed.

Lemma all_parsed_length w files trees :
  all_parsed w files trees → length trees = length files.
Proof.
  unfold all_parsed. intros H.
  by rewrite <-(length_fmap Parsed trees), <-H, length_fmap.
Qed.

Lemma load_step_parsed w acc f t :
  load w f = Parsed t → load_step w acc f = ([EvLoad f], inr (dict_set f t acc)).
Proof. intros Hf. unfold load_step. by rewrite Hf. Qed.

Lemma load_step_error w acc f mark :
  load w f = YamlError mark →
  load_step w acc f
  = ([EvLoad f], inl (ParserError (parse_error_message f mark))).
Proof. intros Hf. unfold load_step. by rewrite Hf. Qed.

Lemma load_loop_parsed w files trees acc :
  all_parsed w files trees → NoDup (acc.*1 ++ files) →
  foldM (load_step w) acc files
  = (EvLoad <$> files, inr (acc ++ zip files trees)).
Proof.
  revert trees acc. induction files as [|f files IH]; intros trees acc Hp Hnd.
  - destruct trees; [|done]. simpl. by rewrite app_nil_r.
  - apply all_parsed_cons_inv in Hp as (t & trees' & -> & Hf & Hp).
    cbn [foldM]. rewrite (load_step_parsed _ _ _ t), bind_pure by done.
    rewrite dict_set_fresh.
    2:{ apply NoDup_app in Hnd as (_ & Hnd & _). intros Hin.
        apply (Hnd f Hin). apply elem_of_cons. by left. }
    rewrite (IH trees'); [| done |].
    + simpl. by rewrite <-app_assoc.
    + rewrite fmap_app, <-app_assoc. simpl. done.
Qed.

Lemma load_files_parsed w files trees :
  all_parsed w files trees → NoDup files →
  load_files w files = (EvLoad <$> files, inr (zip files trees)).
Proof. intros Hp Hnd. by apply (load_loop_parsed w files trees []). Qed.

Lemma load_loop_error w pre f mark post trees acc :
  all_parsed w pre trees → NoDup (acc.*1 ++ pre) →
  load w f = YamlError mark →
  foldM (load_step w) acc (pre ++ f :: post)
  = (EvLoad <$> (pre ++ [f]), inl (ParserError (parse_error_message f mark))).
Proof.
  revert trees acc. induction pre as [|g pre IH]; intros trees acc Hp Hnd Hf.
  - simpl. rewrite (load_step_error _ _ _ mark) by done.
    by rewrite bind_unfold.
  - apply all_parsed_cons_inv in Hp as (t & trees' & -> & Hg & Hp).
    simpl. rewrite (load_step_parsed _ _ _ t), bind_pure by done.
    rewrite dict_set_fresh.
    2:{ apply NoDup_app in Hnd as (_ & Hnd & _). intros Hin.
        apply (Hnd g Hin). apply elem_of_cons. by left. }
    rewrite (IH trees'); [done | done | | done].
    rewrite fmap_app, <-app_assoc. simpl. done.
Qed.

(** ** Duplicate detection *)

Lemma elem_of_all_pairs {A} (l : list A) (x y : A) :
  (x, y) ∈ all_pairs l ↔ ∃ i j, i < j ∧ l !! i = Some x ∧ l !! j = Some y.
Proof.
  induction l as [|a l IH]; simpl.
  - split; [by intros ?%elem_of_nil|]. by intros (i & j & _ & ? & _).
  - rewrite elem_of_app, list_elem_of_fmap, IH. split.
    + intros [(z & [= -> ->] & Hz)|(i & j & Hij & Hi & Hj)].
      * apply list_elem_of_lookup in Hz as [j Hj].
        exists 0, (S j). split; [lia|done].
      * exists (S i), (S j). split; [lia|done].
    + intros (i & j & Hij & Hi & Hj). destruct j as [|j]; [lia|].
      destruct i as [|i]; simpl in *.
      * left. injection Hi as ->. exists y. split; [done|].
        apply list_elem_of_lookup. by exists j.
      * right. exists i, j. split; [lia|done].
Qed.

Lemma bind_keys_lookup (seen sub : list (string * gset string))
    (g : string → gset string → list string) :
  NoDup seen.*1 → sub ⊆ seen →
  sub.*1 ≫= (λ f, g f (default ∅ (dict_get f seen)))
  = sub ≫= (λ fc, g fc.1 fc.2).
Proof.
  intros Hnd. induction sub as [|[f c] sub IH]; intros Hsub; [done|].
  rewrite fmap_cons, !bind_cons. simpl.
  rewrite (dict_get_elem_of f c seen Hnd) by (apply Hsub; by left).
  rewrite IH; [done|]. intros x Hx. apply Hsub. by right.
Qed.

Lemma drop_past {A B} (pre rest : list (A * B)) (x : A * B) :
  drop (S (length pre)) (pre ++ x :: rest).*1 = rest.*1.
Proof. induction pre as [|y pre IH]; simpl; [done|]. exact IH. Qed.

Lemma bind_pair_report (x : string * gset string)
    (rest : list (string * gset string)) :
  rest ≫= (λ fc, if decide (x.2 ∩ fc.2 ≠ ∅)
                 then [duplicate_message x.1 fc.1 (x.2 ∩ fc.2)] else [])
  = (pair x <$> rest) ≫= pair_report.
Proof.
  induction rest as [|y rest IH]; [done|].
  rewrite fmap_cons, !bind_cons, IH. done.
Qed.

Lemma collect_duplicates_from (seen pre rest : list (string * gset string)) :
  seen = pre ++ rest → NoDup seen.*1 →
  zip (seq (S (length pre)) (length rest)) rest.*1 ≫= (λ '(i, filepath1),
    let config1 := default ∅ (dict_get filepath1 seen) in
    drop i seen.*1 ≫= λ filepath2,
      let config2 := default ∅ (dict_get filepath2 seen) in
      let overlapping_keys := config1 ∩ config2 in
      if decide (overlapping_keys ≠ ∅)
      then [duplicate_message filepath1 filepath2 overlapping_keys]
      else [])
  = duplicate_report rest.
Proof.
  intros Hseen Hnd. revert pre Hseen.
  induction rest as [|[f1 c1] rest IH]; intros pre Hseen; [done|].
  cbn [length seq fmap list_fmap zip zip_with all_pairs]. simpl fst.
  unfold duplicate_report. cbn [all_pairs]. rewrite bind_cons, bind_app.
  f_equal.
  - cbn zeta.
    rewrite (dict_get_elem_of f1 c1 seen Hnd)
      by (rewrite Hseen, elem_of_app; right; by left).
    rewrite Hseen at 1. rewrite drop_past.
    change (default ∅ (Some c1)) with c1.
    pose (g := λ (f2 : string) (c2 : gset string),
                 if decide (c1 ∩ c2 ≠ ∅)
                 then [duplicate_message f1 f2 (c1 ∩ c2)] else []).
    etrans.
    { apply (bind_keys_lookup seen rest g); [done|].
      rewrite Hseen. intros x Hx. rewrite elem_of_app. right. by right. }
    apply (bind_pair_report (f1, c1)).
  - specialize (IH (pre ++ [(f1, c1)])).
    rewrite length_app in IH. simpl in IH.
    replace (length pre + 1) with (S (length pre)) in IH by lia.
    apply IH. by rewrite Hseen, <-app_assoc.
Qed.

Lemma collect_duplicates_eq (seen : list (string * gset string)) :
  NoDup seen.*1 → collect_duplicates seen = duplicate_report seen.
Proof.
  intros Hnd. unfold collect_duplicates. cbn zeta. rewrite length_fmap.
  by apply (collect_duplicates_from seen [] seen).
Qed.

Lemma bind_nil_iff {A B} (f : A → list B) (l : list A) :
  l ≫= f = [] ↔ ∀ x, x ∈ l → f x = [].
Proof.
  induction l as [|a l IH].
  - split; [|done]. by intros _ x ?%elem_of_nil.
  - rewrite bind_cons. split.
    + intros [Ha Hl]%app_eq_nil x [->|Hx]%elem_of_cons; [done|].
      by apply IH.
    + intros H. rewrite (H a) by (by left). simpl. apply IH.
      intros x Hx. apply H. by right.
Qed.

(** No message at all exactly when the key sets are pairwise disjoint. *)
Lemma duplicate_report_nil (seen : list (string * gset string)) :
  duplicate_report seen = [] ↔
  ∀ i j c1 c2, i < j → seen.*2 !! i = Some c1 → seen.*2 !! j = Some c2 →
               c1 ∩ c2 = ∅.
Proof.
  unfold duplicate_report. rewrite bind_nil_iff. split.
  - intros H i j c1 c2 Hij Hi Hj.
    rewrite list_lookup_fmap in Hi, Hj.
    destruct (seen !! i) as [x|] eqn:Hx; [|done].
    destruct (seen !! j) as [y|] eqn:Hy; [|done].
    simpl in Hi, Hj. injection Hi as <-. injection Hj as <-.
    specialize (H (x, y)). unfold pair_report in H. simpl in H.
    destruct (decide (x.2 ∩ y.2 ≠ ∅)) as [Hne|Heq].
    + discriminate H. apply elem_of_all_pairs. by exists i, j.
    + by destruct (decide (x.2 ∩ y.2 = ∅)).
  - intros H [x y] (i & j & Hij & Hi & Hj)%elem_of_all_pairs.
    unfold pair_report. simpl. rewrite decide_False; [done|].
    intros Hne. apply Hne. apply (H i j); [done|..];
      rewrite list_lookup_fmap; [by rewrite Hi|by rewrite Hj].
Qed.

(** ** Merging the trees of a directory *)

Lemma merge_tree_disjoint (a b : Tree) : a ##ₘ b → merge_tree a b = a ∪ b.
Proof.
  intros Hd. apply map_eq. intros k. unfold merge_tree.
  rewrite lookup_union_with, lookup_union.
  destruct (a !! k) as [x|] eqn:Ha, (b !! k) as [y|] eqn:Hb; try done.
  exfalso. by apply (map_disjoint_spec a b) with k x y.
Qed.

Lemma foldl_merge_tree_disjoint (acc : Tree) (trees : list Tree) :
  Forall (λ t, acc ##ₘ t) trees → map_disjoint_list trees →
  foldl merge_tree acc trees = acc ∪ ⋃ trees.
Proof.
  revert acc. induction trees as [|t trees IH]; intros acc Hacc Hd; simpl.
  - by rewrite (right_id_L ∅ (∪)).
  - apply Forall_cons in Hacc as [Ht Hacc].
    apply map_disjoint_list_cons in Hd as [Htd Hd].
    rewrite merge_tree_disjoint by done. rewrite IH; [|..|done].
    + by rewrite (assoc_L (∪)).
    + apply Forall_forall. intros u Hu. apply map_disjoint_union_l. split.
      * by apply (proj1 (Forall_forall _ _) Hacc).
      * symmetry. by apply (proj1 (Forall_forall _ _) Htd).
Qed.

Lemma OmegaConf_merge_disjoint (trees : list Tree) :
  map_disjoint_list trees → OmegaConf_merge trees = ⋃ trees.
Proof.
  destruct trees as [|t trees]; [done|].
  intros [Ht Hd]%map_disjoint_list_cons. simpl.
  apply foldl_merge_tree_disjoint; [|done].
  eapply Forall_impl; [exact Ht|]. intros u Hu. by symmetry.
Qed.

Lemma keys_of_fst frags : (keys_of frags).*1 = frags.*1.
Proof. unfold keys_of. rewrite <-list_fmap_compose. done. Qed.

Lemma keys_of_snd frags : (keys_of frags).*2 = dom <$> frags.*2.
Proof. unfold keys_of. by rewrite <-!list_fmap_compose. Qed.

Lemma map_disjoint_list_report (frags : list (string * Tree)) :
  map_disjoint_list frags.*2 ↔ duplicate_report (keys_of frags) = [].
Proof.
  rewrite duplicate_report_nil, keys_of_snd. split.
  - intros Hd i j c1 c2 Hij Hi Hj. rewrite list_lookup_fmap in Hi, Hj.
    destruct (frags.*2 !! i) as [t1|] eqn:H1; [|done].
    destruct (frags.*2 !! j) as [t2|] eqn:H2; [|done].
    simpl in Hi, Hj. injection Hi as <-. injection Hj as <-.
    apply disjoint_intersection_L, map_disjoint_dom.
    apply (Hd i j); [lia|done..].
  - intros H i j t1 t2 Hij Hi Hj.
    apply map_disjoint_dom, disjoint_intersection_L.
    destruct (decide (i < j)).
    + apply (H i j); [done|..]; rewrite list_lookup_fmap;
        [by rewrite Hi|by rewrite Hj].
    + rewrite (comm_L (∩)).
      apply (H j i); [lia|..]; rewrite list_lookup_fmap;
        [by rewrite Hj|by rewrite Hi].
Qed.

(** ** One directory *)

Lemma config_files_NoDup w conf_path patterns :
  set_iter_ok w → NoDup (config_files w conf_path patterns).
Proof.
  intros Hok. unfold config_files. apply NoDup_filter.
  rewrite (Hok _). apply NoDup_elements.
Qed.

Lemma load_dir_missing w conf_path patterns :
  is_dir w conf_path = false →
  load_and_merge_dir_config w conf_path patterns
  = ([EvIsDir conf_path],
     inl (MissingConfigException (missing_path_message conf_path))).
Proof.
  intros Hdir. unfold load_and_merge_dir_config, emit.
  rewrite bind_pure, Hdir. done.
Qed.

(** After the scan, the directory load continues with the loop over the
    filtered files. *)
Lemma load_dir_scan w conf_path patterns :
  is_dir w conf_path = true →
  load_and_merge_dir_config w conf_path patterns
  = (scan_trace w conf_path patterns, inr ()) ≫= λ _,
      config_per_file ← load_files w (config_files w conf_path patterns);
      _ ← _check_duplicates (keys_of config_per_file);
      match config_per_file.*2 with
      | [] => mret ∅
      | [config] => mret config
      | _ => _ ← emit (EvMerge (length config_per_file.*2));
             mret (OmegaConf_merge config_per_file.*2)
      end.
Proof.
  intros Hdir. unfold load_and_merge_dir_config, emit.
  rewrite !bind_pure, Hdir. cbn [negb].
  rewrite expand_patterns_eq, bind_pure. cbn [trace outcome fst snd].
  rewrite filter_valid_eq, bind_pure. cbn [trace outcome fst snd].
  unfold scan_trace, config_files.
  destruct (load_files _ _ ≫= _) as [tr r].
  simpl. by rewrite <-app_assoc.
Qed.

(** A file of the directory does not parse: the error names the first such
    file in iteration order. *)
Lemma load_dir_parse_error w conf_path patterns pre f post trees mark :
  set_iter_ok w → is_dir w conf_path = true →
  config_files w conf_path patterns = pre ++ f :: post →
  all_parsed w pre trees → load w f = YamlError mark →
  load_and_merge_dir_config w conf_path patterns
  = (scan_trace w conf_path patterns ++ (EvLoad <$> (pre ++ [f])),
     inl (ParserError (parse_error_message f mark))).
Proof.
  intros Hok Hdir Hfiles Hpre Hf. rewrite load_dir_scan by done.
  rewrite bind_pure. unfold load_files. rewrite Hfiles.
  rewrite (load_loop_error w pre f mark post trees []); [done|done| |done].
  pose proof (config_files_NoDup w conf_path patterns Hok) as Hnd.
  rewrite Hfiles in Hnd. by apply NoDup_app in Hnd as (? & _ & _).
Qed.

(** All files parse: what the duplicate check and the merge are run on. *)
Lemma load_dir_loaded w conf_path patterns trees :
  set_iter_ok w → is_dir w conf_path = true →
  all_parsed w (config_files w conf_path patterns) trees →
  load_and_merge_dir_config w conf_path patterns
  = (scan_trace w conf_path patterns
       ++ (EvLoad <$> config_files w conf_path patterns), inr ()) ≫= λ _,
      _ ← _check_duplicates
            (keys_of (zip (config_files w conf_path patterns) trees));
      match trees with
      | [] => mret ∅
      | [config] => mret config
      | _ => _ ← emit (EvMerge (length trees)); mret (OmegaConf_merge trees)
      end.
Proof.
  intros Hok Hdir Hp. rewrite load_dir_scan by done.
  rewrite (load_files_parsed w _ trees) by (done || by apply config_files_NoDup).
  rewrite !bind_pure. cbn [trace outcome fst snd].
  rewrite snd_zip by (by rewrite (all_parsed_length w _ trees Hp)).
  by rewrite <-app_assoc.
Qed.

Lemma check_duplicates_eq seen :
  NoDup seen.*1 →
  _check_duplicates seen
  = match duplicate_report seen with
    | [] => mret ()
    | _ => raise (ValueError (join newline (duplicate_report seen)))
    end.
Proof. intros Hnd. unfold _check_duplicates. by rewrite collect_duplicates_eq. Qed.

Lemma keys_of_zip_NoDup w conf_path patterns trees :
  set_iter_ok w →
  all_parsed w (config_files w conf_path patterns) trees →
  NoDup (keys_of (zip (config_files w conf_path patterns) trees)).*1.
Proof.
  intros Hok Hp. rewrite keys_of_fst.
  rewrite fst_zip by (by rewrite (all_parsed_length w _ trees Hp)).
  by apply config_files_NoDup.
Qed.

(** Two files share a key: the duplicate-key error, and no merge. *)
Lemma load_dir_duplicates w conf_path patterns trees :
  set_iter_ok w → is_dir w conf_path = true →
  all_parsed w (config_files w conf_path patterns) trees →
  ¬ map_disjoint_list trees →
  load_and_merge_dir_config w conf_path patterns
  = (scan_trace w conf_path patterns
       ++ (EvLoad <$> config_files w conf_path patterns),
     inl (ValueError (join newline
       (duplicate_report
          (keys_of (zip (config_files w conf_path patterns) trees)))))).
Proof.
  intros Hok Hdir Hp Hnd. rewrite (load_dir_loaded w _ _ trees) by done.
  rewrite bind_pure.
  rewrite check_duplicates_eq by (by apply keys_of_zip_NoDup).
  destruct (duplicate_report _) as [|msg msgs] eqn:Hrep.
  - exfalso. apply Hnd.
    apply map_disjoint_list_report in Hrep.
    by rewrite snd_zip in Hrep by (by rewrite (all_parsed_length w _ trees Hp)).
  - unfold raise. rewrite bind_unfold. simpl. by rewrite app_nil_r.
Qed.

(** No two files share a key: the union of the trees. *)
Lemma load_dir_merged w conf_path patterns trees :
  set_iter_ok w → is_dir w conf_path = true →
  all_parsed w (config_files w conf_path patterns) trees →
  map_disjoint_list trees →
  load_and_merge_dir_config w conf_path patterns
  = (scan_trace w conf_path patterns
       ++ (EvLoad <$> config_files w conf_path patterns)
       ++ (if decide (2 ≤ length trees)%nat then [EvMerge (length trees)] else []),
     inr (OmegaConf_merge trees)).
Proof.
  intros Hok Hdir Hp Hd. rewrite (load_dir_loaded w _ _ trees) by done.
  rewrite bind_pure.
  rewrite check_duplicates_eq by (by apply keys_of_zip_NoDup).
  replace (duplicate_report _) with (@nil string).
  2:{ symmetry. apply map_disjoint_list_report.
      by rewrite snd_zip by (by rewrite (all_parsed_length w _ trees Hp)). }
  rewrite bind_unfold. simpl.
  destruct trees as [|t [|t' trees]]; simpl; rewrite ?app_nil_r, <-?app_assoc;
    try done.
Qed.

(** ** The lookup *)

Lemma getitem_preset w self key value :
  preset_value self key = Some value → __getitem__ w self key = ([], inr value).
Proof. intros H. unfold __getitem__. by rewrite H. Qed.

Lemma getitem_unknown w self key :
  preset_value self key = None → config_patterns self !! key = None →
  __getitem__ w self key = ([], inl (KeyError (unknown_key_message key))).
Proof. intros H1 H2. unfold __getitem__. by rewrite H1, H2. Qed.

Lemma getitem_base_raises w self key patterns e :
  preset_value self key = None → config_patterns self !! key = Some patterns →
  outcome (load_and_merge_dir_config w (base_path w self) patterns) = inl e →
  __getitem__ w self key
  = (trace (load_and_merge_dir_config w (base_path w self) patterns), inl e).
Proof.
  intros H1 H2 Hb. unfold __getitem__. rewrite H1, H2.
  by apply bind_raises.
Qed.

Lemma getitem_env_raises w self key patterns base_config e :
  preset_value self key = None → config_patterns self !! key = Some patterns →
  outcome (load_and_merge_dir_config w (base_path w self) patterns)
    = inr base_config →
  outcome (load_and_merge_dir_config w (env_path w self) patterns) = inl e →
  __getitem__ w self key
  = (trace (load_and_merge_dir_config w (base_path w self) patterns)
       ++ trace (load_and_merge_dir_config w (env_path w self) patterns),
     inl e).
Proof.
  intros H1 H2 Hb He. unfold __getitem__. rewrite H1, H2.
  rewrite (bind_returns _ _ base_config) by done.
  by rewrite (bind_raises _ _ e) by done.
Qed.

Lemma getitem_composed w self key patterns base_config env_config :
  preset_value self key = None → config_patterns self !! key = Some patterns →
  outcome (load_and_merge_dir_config w (base_path w self) patterns)
    = inr base_config →
  outcome (load_and_merge_dir_config w (env_path w self) patterns)
    = inr env_config →
  __getitem__ w self key
  = (trace (load_and_merge_dir_config w (base_path w self) patterns)
       ++ trace (load_and_merge_dir_config w (env_path w self) patterns)
       ++ override_trace (env_path w self) base_config env_config,
     if decide (update base_config env_config = ∅)
     then inl (MissingConfigException
                 (missing_config_message (base_path w self) (env_path w self)
                    patterns))
     else inr (update base_config env_config)).
Proof.
  intros H1 H2 Hb He. unfold __getitem__. rewrite H1, H2.
  rewrite (bind_returns _ _ base_config) by done.
  rewrite (bind_returns _ _ env_config) by done.
  fold (base_path w self) (env_path w self). unfold override_trace.
  destruct (decide (dom base_config ∩ dom env_config ≠ ∅));
    destruct (decide (update base_config env_config = ∅)); done.
Qed.

(** ** Example projects *)

Lemma table_world_elements_ok dirs globs files :
  set_iter_ok (table_world dirs globs files elements).
Proof. intros s. done. Qed.

(** * The claims *)

(** C8: when the caller has set a value for a key on the loader instance,
    the lookup of that key returns exactly that value at once: nothing is
    recorded on the trace (no directory test, no glob, no file read), no
    exception is raised, and neither the pattern table nor the world has any
    influence on the result. *)
Theorem preset_value_is_returned_at_once (w : World) (self : OmegaConfLoader)
    (key : string) (value : Tree) :
  preset_value self key = Some value →
  __getitem__ w self key = ([], inr value)
  ∧ ∀ w' patterns',
      __getitem__ w'
        {| conf_source := conf_source self; env := env self;
           base_env := base_env self; default_run_env := default_run_env self;
           config_patterns := patterns'; data := data self |} key
      = ([], inr value).
Proof.
  intros Hset. split; [by apply getitem_preset|].
  intros w' patterns'. by apply getitem_preset.
Qed.

Lemma preset_value_is_returned_at_once_witness :
  __getitem__ no_base_world
    (__setitem__ project_loader "catalog" {[ "x" := VInt 7 ]}) "catalog"
  = ([], inr {[ "x" := VInt 7 ]}).
Proof.
  apply (preset_value_is_returned_at_once no_base_world
           (__setitem__ project_loader "catalog" {[ "x" := VInt 7 ]})).
  reflexivity.
Defined.

(** C9: a key with no entry in the pattern table and no value set on the
    loader fails with the unknown-key error, whose message names the key,
    and the trace is empty: the filesystem has not been touched. *)
Theorem unknown_key_fails_at_once (w : World) (self : OmegaConfLoader)
    (key : string) :
  preset_value self key = None → config_patterns self !! key = None →
  __getitem__ w self key
  = ([], inl (KeyError ("No config patterns were found for '" +:+ key
                          +:+ "' in your config loader"))).
Proof. apply getitem_unknown. Qed.

Lemma unknown_key_fails_at_once_witness :
  __getitem__ layered_world project_loader "spark"
  = ([], inl (KeyError
       "No config patterns were found for 'spark' in your config loader")).
Proof.
  apply (unknown_key_fails_at_once layered_world project_loader "spark");
    reflexivity.
Defined.



Lemma set_iter_empty w : set_iter_ok w → set_iter w ∅ = [].
Proof.
  intros Hok. apply Permutation_nil_r. by rewrite (Hok ∅), elements_empty.
Qed.

Lemma update_empty_iff (config env_config : Tree) :
  update config env_config = ∅ ↔ config = ∅ ∧ env_config = ∅.
Proof.
  unfold update. split.
  - intros H. split.
    + apply map_positive_l with env_config. rewrite map_union_comm; [done|].
      apply map_positive_l in H. rewrite H. apply map_disjoint_empty_r.
    + by apply map_positive_l in H.
  - intros [-> ->]. by rewrite (left_id_L ∅ (∪)).
Qed.

(** A directory in which no file qualifies loads as the empty tree. *)
Lemma load_dir_no_files w conf_path patterns :
  set_iter_ok w → is_dir w conf_path = true →
  config_files w conf_path patterns = [] →
  load_and_merge_dir_config w conf_path patterns
  = (scan_trace w conf_path patterns, inr ∅).
Proof.
  intros Hok Hdir Hfiles.
  rewrite (load_dir_merged w conf_path patterns []); [|done|done|..].
  - rewrite Hfiles. simpl. by rewrite app_nil_r.
  - by rewrite Hfiles.
  - intros i j t1 t2 _ Hi. by rewrite lookup_nil in Hi.
Qed.

Lemma scan_trace_no_patterns w conf_path :
  set_iter_ok w → scan_trace w conf_path [] = [EvIsDir conf_path].
Proof.
  intros Hok. unfold scan_trace. simpl.
  change (list_to_set []) with (∅ : gset string).
  by rewrite set_iter_empty.
Qed.

Lemma config_files_no_patterns w conf_path :
  set_iter_ok w → config_files w conf_path [] = [].
Proof.
  intros Hok. unfold config_files. simpl.
  change (list_to_set []) with (∅ : gset string).
  by rewrite set_iter_empty.
Qed.

(** C10: a key that is in the pattern table with an empty pattern list (and
    has no value set on the loader) does not raise the unknown-key error.
    With both directories present the pipeline runs, expands no pattern,
    finds no file, and the lookup fails with the missing-configuration error. *)
Theorem empty_pattern_list_is_missing_configuration (w : World)
    (self : OmegaConfLoader) (key : string) :
  set_iter_ok w →
  preset_value self key = None → config_patterns self !! key = Some [] →
  is_dir w (base_path w self) = true → is_dir w (env_path w self) = true →
  __getitem__ w self key
  = ([EvIsDir (base_path w self); EvIsDir (env_path w self)],
     inl (MissingConfigException
            (missing_config_message (base_path w self) (env_path w self) []))).
Proof.
  intros Hok Hdata Hpat Hbase Henv.
  pose proof (load_dir_no_files w (base_path w self) [] Hok Hbase
                (config_files_no_patterns w _ Hok)) as Hb.
  pose proof (load_dir_no_files w (env_path w self) [] Hok Henv
                (config_files_no_patterns w _ Hok)) as He.
  rewrite scan_trace_no_patterns in Hb, He by done.
  rewrite (getitem_composed w self key [] ∅ ∅); try done;
    [|by rewrite Hb|by rewrite He].
  rewrite Hb, He. done.
Qed.

Lemma empty_pattern_list_is_missing_configuration_witness :
  __getitem__ empty_world spark_loader "spark"
  = ([EvIsDir "conf/base"; EvIsDir "conf/local"],
     inl (MissingConfigException
            "No files of YAML or JSON format found in conf/base or conf/local matching the glob pattern(s): []")).
Proof.
  apply (empty_pattern_list_is_missing_configuration empty_world spark_loader
           "spark"); try reflexivity.
  apply table_world_elements_ok.
Defined.

(** C6: for a key that has patterns and no value set on the loader, when
    both directories load (so both exist) the lookup fails with the
    missing-configuration error exactly when the composed tree is empty,
    that is when neither layer contributed a key, and the message names the
    base directory, the environment directory and the patterns searched;
    otherwise the composed tree is returned.  In particular two existing
    directories in which no file qualifies give the error. *)
Theorem empty_composition_is_missing_configuration (w : World)
    (self : OmegaConfLoader) (key : string) (patterns : list string) :
  preset_value self key = None → config_patterns self !! key = Some patterns →
  (∀ base_config env_config,
     outcome (load_and_merge_dir_config w (base_path w self) patterns)
       = inr base_config →
     outcome (load_and_merge_dir_config w (env_path w self) patterns)
       = inr env_config →
     (update base_config env_config = ∅ →
      outcome (__getitem__ w self key)
      = inl (MissingConfigException
               ("No files of YAML or JSON format found in " +:+ base_path w self
                  +:+ " or " +:+ env_path w self
                  +:+ " matching the glob pattern(s): " +:+ repr_list patterns)))
     ∧ (update base_config env_config ≠ ∅ →
        outcome (__getitem__ w self key) = inr (update base_config env_config))
     ∧ (update base_config env_config = ∅ ↔
        base_config = ∅ ∧ env_config = ∅))
  ∧ (set_iter_ok w →
     is_dir w (base_path w self) = true → is_dir w (env_path w self) = true →
     config_files w (base_path w self) patterns = [] →
     config_files w (env_path w self) patterns = [] →
     outcome (__getitem__ w self key)
     = inl (MissingConfigException
              (missing_config_message (base_path w self) (env_path w self)
                 patterns))).
Proof.
  intros Hdata Hpat. split.
  - intros base_config env_config Hb He.
    rewrite (getitem_composed w self key patterns base_config env_config)
      by done.
    unfold outcome. cbn [snd].
    split; [|split].
    + intros H. by rewrite decide_True.
    + intros H. by rewrite decide_False.
    + apply update_empty_iff.
  - intros Hok Hbase Henv Hfb Hfe.
    rewrite (getitem_composed w self key patterns ∅ ∅); try done.
    + by rewrite load_dir_no_files.
    + by rewrite load_dir_no_files.
Qed.

Lemma empty_composition_is_missing_configuration_witness :
  outcome (__getitem__ empty_world project_loader "catalog")
  = inl (MissingConfigException
           "No files of YAML or JSON format found in conf/base or conf/local matching the glob pattern(s): ['catalog*', 'catalog*/**', '**/catalog*']")
  ∧ outcome (__getitem__ layered_world project_loader "catalog")
    = inr (update {[ "a" := VInt 1; "b" := VInt 2 ]}
                  {[ "b" := VInt 3; "c" := VInt 4 ]}).
Proof.
  split.
  - apply (empty_composition_is_missing_configuration empty_world
             project_loader "catalog"
             ["catalog*"; "catalog*/**"; "**/catalog*"]); try reflexivity.
    apply table_world_elements_ok.
  - apply (empty_composition_is_missing_configuration layered_world
             project_loader "catalog"
             ["catalog*"; "catalog*/**"; "**/catalog*"] eq_refl eq_refl);
      try reflexivity.
    vm_compute. discriminate.
Defined.

(** [update] replaces a top-level value as a whole, where the deep merge of
    the same two trees would combine the nested dictionaries. *)
Example update_is_shallow :
  update {[ "db" := VDict {[ "host" := VStr "a"; "port" := VInt 1 ]} ]}
         {[ "db" := VDict {[ "port" := VInt 2 ]} ]}
  = {[ "db" := VDict {[ "port" := VInt 2 ]} ]}
  ∧ merge_tree {[ "db" := VDict {[ "host" := VStr "a"; "port" := VInt 1 ]} ]}
               {[ "db" := VDict {[ "port" := VInt 2 ]} ]}
    = {[ "db" := VDict {[ "host" := VStr "a"; "port" := VInt 2 ]} ]}.
Proof. split; vm_compute; reflexivity. Qed.







(** An exception of a directory load is the exception of the lookup. *)
Lemma getitem_dir_raises w self key patterns conf_path e :
  preset_value self key = None → config_patterns self !! key = Some patterns →
  reached w self patterns conf_path →
  outcome (load_and_merge_dir_config w conf_path patterns) = inl e →
  outcome (__getitem__ w self key) = inl e.
Proof.
  intros Hdata Hpat [->|[-> [base_config Hb]]] He.
  - by rewrite (getitem_base_raises w self key patterns e).
  - by rewrite (getitem_env_raises w self key patterns base_config e).
Qed.



(** The events of a directory load before the duplicate check contain no
    merge. *)
Lemma scan_and_load_no_merge w conf_path patterns files n :
  EvMerge n ∉ scan_trace w conf_path patterns ++ (EvLoad <$> files).
Proof.
  unfold scan_trace, expand_trace.
  rewrite elem_of_app, elem_of_cons, elem_of_app, list_elem_of_bind,
    !list_elem_of_fmap.
  intros [[?|[(pat & Hin & _)|(? & ? & _)]]|(? & ? & _)]; try done.
  apply elem_of_cons in Hin as [?|(? & ? & _)%list_elem_of_fmap]; done.
Qed.


(** A joined key list of more than 100 characters is cut to 100 and
    followed by three dots. *)
Example overlap_text_truncates :
  overlap_text long_keys
  = "Z, aaaaaaaaaaaaaaaaaaaaaaaaaaaaaaaaaaaaaaaaaaaaaaaaaaaaaaaaaaaa, bbbbbbbbbbbbbbbbbbbbbbbbbbbbbbbbbbb...".
Proof. vm_compute. reflexivity. Qed.



(** Either every file parses, or there is a first one that does not. *)
Lemma parse_split w (files : list string) :
  (∃ trees, all_parsed w files trees)
  ∨ (∃ pre f post trees mark,
       files = pre ++ f :: post ∧ all_parsed w pre trees
       ∧ load w f = YamlError mark).
Proof.
  induction files as [|f files IH].
  - left. by exists [].
  - destruct (load w f) as [t|mark] eqn:Hf.
    + destruct IH as [[trees Hp]|(pre & g & post & trees & mark & -> & Hp & Hg)].
      * left. exists (t :: trees). unfold all_parsed in *.
        by rewrite !fmap_cons, Hf, Hp.
      * right. exists (f :: pre), g, post, (t :: trees), mark.
        split; [done|]. split; [|done]. unfold all_parsed in *.
        by rewrite !fmap_cons, Hf, Hp.
    + right. by exists [], f, files, [], mark.
Qed.

Lemma all_parsed_elem_of w files trees f :
  all_parsed w files trees → f ∈ files → ∃ t, load w f = Parsed t.
Proof.
  revert trees. induction files as [|g files IH]; intros trees Hp Hin.
  - by apply elem_of_nil in Hin.
  - apply all_parsed_cons_inv in Hp as (t & trees' & -> & Hg & Hp).
    apply elem_of_cons in Hin as [->|Hin]; [by exists t|]. by apply (IH trees').
Qed.

(** C4, as the code has it: in a directory the lookup gets to load, if some
    qualifying file is malformed then the lookup fails with a parse error
    for the first malformed file in iteration order, and the message states
    that file's path and the line and column exactly as the parsing engine's
    problem mark carries them (PyYAML counts both from zero; nothing is
    added). *)
Theorem parse_error_names_file_and_engine_mark (w : World)
    (self : OmegaConfLoader) (key : string) (patterns : list string)
    (conf_path : string) (f : string) (mark : Mark) :
  set_iter_ok w →
  preset_value self key = None → config_patterns self !! key = Some patterns →
  reached w self patterns conf_path → is_dir w conf_path = true →
  f ∈ config_files w conf_path patterns → load w f = YamlError mark →
  ∃ pre g post trees mark',
    config_files w conf_path patterns = pre ++ g :: post
    ∧ all_parsed w pre trees ∧ load w g = YamlError mark'
    ∧ outcome (__getitem__ w self key)
      = inl (ParserError
               ("Invalid YAML or JSON file " +:+ g +:+ ", unable to read line "
                  +:+ pretty (line mark') +:+ ", position "
                  +:+ pretty (column mark') +:+ "."))
    ∧ outcome (load_and_merge_dir_config w conf_path patterns)
      = outcome (__getitem__ w self key).
Proof.
  intros Hok Hdata Hpat Hreach Hdir Hin Hf.
  destruct (parse_split w (config_files w conf_path patterns))
    as [[trees Hp]|(pre & g & post & trees & mark' & Hfiles & Hp & Hg)].
  - destruct (all_parsed_elem_of w _ trees f Hp Hin) as [t Ht]. congruence.
  - exists pre, g, post, trees, mark'.
    pose proof (load_dir_parse_error w conf_path patterns pre g post trees
                  mark' Hok Hdir Hfiles Hp Hg) as Hload.
    assert (outcome (__getitem__ w self key)
            = inl (ParserError (parse_error_message g mark'))) as Hget.
    { apply (getitem_dir_raises w self key patterns conf_path); try done.
      by rewrite Hload. }
    split; [done|]. split; [done|]. split; [done|]. split; [done|].
    by rewrite Hget, Hload.
Qed.

Lemma parse_error_names_file_and_engine_mark_witness :
  ∃ pre g post trees mark',
    config_files malformed_world "conf/base"
      ["catalog*"; "catalog*/**"; "**/catalog*"] = pre ++ g :: post
    ∧ all_parsed malformed_world pre trees
    ∧ load malformed_world g = YamlError mark'
    ∧ outcome (__getitem__ malformed_world project_loader "catalog")
      = inl (ParserError
               ("Invalid YAML or JSON file " +:+ g +:+ ", unable to read line "
                  +:+ pretty (line mark') +:+ ", position "
                  +:+ pretty (column mark') +:+ "."))
    ∧ outcome (load_and_merge_dir_config malformed_world "conf/base"
                 ["catalog*"; "catalog*/**"; "**/catalog*"])
      = outcome (__getitem__ malformed_world project_loader "catalog").
Proof.
  assert (set_iter_ok malformed_world) as Hok by apply table_world_elements_ok.
  assert ("conf/base/catalog.yml"
          ∈ config_files malformed_world "conf/base"
              ["catalog*"; "catalog*/**"; "**/catalog*"]) as Hin
    by (vm_compute; left).
  exact (parse_error_names_file_and_engine_mark malformed_world project_loader
           "catalog" ["catalog*"; "catalog*/**"; "**/catalog*"] "conf/base"
           "conf/base/catalog.yml" {| line := 0; column := 4 |}
           Hok eq_refl eq_refl (or_introl eq_refl) eq_refl Hin eq_refl).
Defined.

(** C4 as stated fails: the engine reports the error of
    [conf/base/catalog.yml] at mark line 0, column 4, which counted from one
    is line 1, column 5, and the message of the lookup says line 0,
    position 4; neither numeral of the one-based position occurs in it. *)
Lemma parse_error_position_is_not_one_based :
  load malformed_world "conf/base/catalog.yml"
    = YamlError {| line := 0; column := 4 |}
  ∧ outcome (__getitem__ malformed_world project_loader "catalog")
    = inl (ParserError
             "Invalid YAML or JSON file conf/base/catalog.yml, unable to read line 0, position 4.")
  ∧ ¬ states_one_based_position
        "Invalid YAML or JSON file conf/base/catalog.yml, unable to read line 0, position 4."
        {| line := 0; column := 4 |}.
Proof.
  split; [reflexivity|]. split; [vm_compute; reflexivity|].
  intros [H _]. vm_compute in H. discriminate.
Qed.

(** ** Enumeration order *)

Lemma candidates_same w1 w2 conf_path patterns :
  same_filesystem w1 w2 →
  candidates w1 conf_path patterns ≡ₚ candidates w2 conf_path patterns.
Proof.
  intros (_ & _ & Hglob & Hres & _). unfold candidates.
  induction patterns as [|pattern patterns IH]; [done|].
  rewrite !bind_cons. apply Permutation_app; [|done].
  rewrite (list_fmap_ext (resolve w1) (resolve w2) _ (λ _ _ _, Hres _)).
  by rewrite (Hglob _).
Qed.

Lemma config_files_same w1 w2 conf_path patterns :
  same_filesystem w1 w2 → set_iter_ok w1 → set_iter_ok w2 →
  config_files w1 conf_path patterns ≡ₚ config_files w2 conf_path patterns.
Proof.
  intros Hsame Hok1 Hok2. unfold config_files.
  rewrite (candidates_same w1 w2 conf_path patterns Hsame).
  rewrite (Hok1 _), <-(Hok2 _).
  destruct Hsame as (_ & _ & _ & _ & Hfile & Hsuf & _).
  erewrite list_filter_iff; [done|].
  intros p. unfold valid_path. by rewrite (Hfile p), (Hsuf p).
Qed.

Lemma all_parsed_Permutation w1 w2 files1 files2 trees1 :
  (∀ p, load w1 p = load w2 p) → files1 ≡ₚ files2 →
  all_parsed w1 files1 trees1 →
  ∃ trees2, trees1 ≡ₚ trees2 ∧ all_parsed w2 files2 trees2.
Proof.
  unfold all_parsed. intros Hload Hperm Hp.
  assert (load w2 <$> files2 ≡ₚ Parsed <$> trees1) as H.
  { rewrite <-Hp, <-Hperm. by rewrite (list_fmap_ext (load w1) (load w2) _
                                         (λ _ _ _, Hload _)). }
  apply Permutation_map_inv in H as (trees2 & Heq & Hperm2).
  by exists trees2.
Qed.

(** A directory load returns a tree exactly when the directory exists, all
    its qualifying files parse and no two of them share a key; the tree is
    then the union of the files' trees. *)
Lemma load_dir_union w conf_path patterns trees :
  set_iter_ok w → is_dir w conf_path = true →
  all_parsed w (config_files w conf_path patterns) trees →
  map_disjoint_list trees →
  outcome (load_and_merge_dir_config w conf_path patterns) = inr (⋃ trees).
Proof.
  intros Hok Hdir Hp Hd.
  rewrite (load_dir_merged w conf_path patterns trees) by done.
  unfold outcome. cbn [snd]. by rewrite OmegaConf_merge_disjoint.
Qed.

Lemma load_dir_success w conf_path patterns config :
  set_iter_ok w →
  outcome (load_and_merge_dir_config w conf_path patterns) = inr config →
  is_dir w conf_path = true
  ∧ ∃ trees, all_parsed w (config_files w conf_path patterns) trees
             ∧ map_disjoint_list trees ∧ config = ⋃ trees.
Proof.
  intros Hok Hload.
  destruct (is_dir w conf_path) eqn:Hdir.
  2:{ by rewrite load_dir_missing in Hload. }
  split; [done|].
  destruct (parse_split w (config_files w conf_path patterns))
    as [[trees Hp]|(pre & g & post & trees & mark & Hfiles & Hp & Hg)].
  2:{ by rewrite (load_dir_parse_error w conf_path patterns pre g post trees
                    mark) in Hload. }
  exists trees. split; [done|].
  destruct (decide (duplicate_report
                      (keys_of (zip (config_files w conf_path patterns) trees))
                    = [])) as [Hrep|Hrep].
  - apply map_disjoint_list_report in Hrep.
    rewrite snd_zip in Hrep by (by rewrite (all_parsed_length w _ trees Hp)).
    split; [done|].
    rewrite load_dir_union with (trees := trees) in Hload by done.
    by injection Hload.
  - rewrite (load_dir_duplicates w conf_path patterns trees) in Hload;
      try done.
    intros Hd. apply Hrep. apply map_disjoint_list_report.
    by rewrite snd_zip by (by rewrite (all_parsed_length w _ trees Hp)).
Qed.

Lemma load_dir_same w1 w2 conf_path patterns config :
  same_filesystem w1 w2 → set_iter_ok w1 → set_iter_ok w2 →
  outcome (load_and_merge_dir_config w1 conf_path patterns) = inr config →
  outcome (load_and_merge_dir_config w2 conf_path patterns) = inr config.
Proof.
  intros Hsame Hok1 Hok2 Hload.
  apply load_dir_success in Hload as (Hdir & trees1 & Hp1 & Hd1 & ->);
    [|done].
  pose proof (config_files_same w1 w2 conf_path patterns Hsame Hok1 Hok2)
    as Hfiles.
  destruct Hsame as (_ & Hisdir & _ & _ & _ & _ & Hld).
  destruct (all_parsed_Permutation w1 w2 _ _ trees1 Hld Hfiles Hp1)
    as (trees2 & Hperm & Hp2).
  rewrite (map_union_list_Permutation trees1 trees2) by done.
  apply load_dir_union; try done.
  - by rewrite <-Hisdir.
  - by rewrite <-Hperm.
Qed.

Lemma getitem_success w self key config :
  outcome (__getitem__ w self key) = inr config →
  preset_value self key = Some config
  ∨ (preset_value self key = None
     ∧ ∃ patterns base_config env_config,
         config_patterns self !! key = Some patterns
         ∧ outcome (load_and_merge_dir_config w (base_path w self) patterns)
           = inr base_config
         ∧ outcome (load_and_merge_dir_config w (env_path w self) patterns)
           = inr env_config
         ∧ update base_config env_config ≠ ∅
         ∧ config = update base_config env_config).
Proof.
  intros Hget.
  destruct (preset_value self key) as [value|] eqn:Hdata.
  { left. rewrite (getitem_preset w self key value) in Hget by done.
    by injection Hget as ->. }
  right. split; [done|].
  destruct (config_patterns self !! key) as [patterns|] eqn:Hpat.
  2:{ by rewrite getitem_unknown in Hget. }
  destruct (outcome (load_and_merge_dir_config w (base_path w self) patterns))
    as [e|base_config] eqn:Hb.
  { by rewrite (getitem_base_raises w self key patterns e) in Hget. }
  destruct (outcome (load_and_merge_dir_config w (env_path w self) patterns))
    as [e|env_config] eqn:He.
  { by rewrite (getitem_env_raises w self key patterns base_config e)
      in Hget. }
  rewrite (getitem_composed w self key patterns base_config env_config)
    in Hget by done.
  unfold outcome in Hget. cbn [snd] in Hget.
  destruct (decide (update base_config env_config = ∅)); [done|].
  exists patterns, base_config, env_config. by injection Hget as <-.
Qed.

(** C3: over the same files, the result tree of a lookup does not depend on
    the order in which the filesystem lists the matches of a pattern or in
    which the set of candidate paths is iterated: whenever the lookup
    returns a tree under one order, it returns the same tree (the same keys
    with the same values) under any other. *)
Theorem lookup_result_independent_of_enumeration_order (w1 w2 : World)
    (self : OmegaConfLoader) (key : string) (config : Tree) :
  same_filesystem w1 w2 → set_iter_ok w1 → set_iter_ok w2 →
  outcome (__getitem__ w1 self key) = inr config →
  outcome (__getitem__ w2 self key) = inr config.
Proof.
  intros Hsame Hok1 Hok2 Hget.
  apply getitem_success in Hget
    as [Hdata|(Hdata & patterns & b & e & Hpat & Hb & He & Hne & ->)].
  { by rewrite (getitem_preset w2 self key config). }
  assert (base_path w1 self = base_path w2 self) as Hbp
    by (unfold base_path; apply Hsame).
  assert (env_path w1 self = env_path w2 self) as Hep
    by (unfold env_path; apply Hsame).
  apply (load_dir_same w1 w2) in Hb; [|done..].
  apply (load_dir_same w1 w2) in He; [|done..].
  rewrite Hbp in Hb. rewrite Hep in He.
  rewrite (getitem_composed w2 self key patterns b e) by done.
  unfold outcome. cbn [snd]. by rewrite decide_False.
Qed.

Lemma split_worlds_same_filesystem :
  same_filesystem split_world split_world_reversed.
Proof.
  repeat split; try done.
  intros pattern. unfold split_world, split_world_reversed, table_world.
  unfold split_globs. cbn [iglob dict_get].
  destruct (decide (pattern = "conf/base/catalog*")); [apply perm_swap|].
  reflexivity.
Qed.

Lemma split_world_reversed_ok : set_iter_ok split_world_reversed.
Proof. intros s. apply reverse_Permutation. Qed.

Lemma lookup_result_independent_of_enumeration_order_witness :
  outcome (__getitem__ split_world_reversed project_loader "catalog")
  = inr {[ "a" := VInt 1; "b" := VDict {[ "x" := VInt 2 ]} ]}.
Proof.
  apply (lookup_result_independent_of_enumeration_order split_world
           split_world_reversed project_loader "catalog").
  - apply split_worlds_same_filesystem.
  - apply table_world_elements_ok.
  - apply split_world_reversed_ok.
  - vm_compute. reflexivity.
Defined.

(** The files are loaded in a different order in the two worlds; only the
    tree is the same. *)
Example enumeration_order_shows_in_the_trace :
  trace (__getitem__ split_world project_loader "catalog")
  ≠ trace (__getitem__ split_world_reversed project_loader "catalog").
Proof. vm_compute. discriminate. Qed.

(** * Further properties of the module *)

(** ** The outcomes of a directory load *)

(** A directory load ends in exactly one of four ways. *)
Lemma load_dir_cases w conf_path patterns :
  set_iter_ok w →
  (is_dir w conf_path = false
   ∧ load_and_merge_dir_config w conf_path patterns
     = ([EvIsDir conf_path],
        inl (MissingConfigException (missing_path_message conf_path))))
  ∨ (is_dir w conf_path = true
     ∧ ∃ pre g post trees mark,
         config_files w conf_path patterns = pre ++ g :: post
         ∧ all_parsed w pre trees ∧ load w g = YamlError mark
         ∧ load_and_merge_dir_config w conf_path patterns
           = (scan_trace w conf_path patterns ++ (EvLoad <$> (pre ++ [g])),
              inl (ParserError (parse_error_message g mark))))
  ∨ (is_dir w conf_path = true
     ∧ ∃ trees,
         all_parsed w (config_files w conf_path patterns) trees
         ∧ ¬ map_disjoint_list trees
         ∧ load_and_merge_dir_config w conf_path patterns
           = (scan_trace w conf_path patterns
                ++ (EvLoad <$> config_files w conf_path patterns),
              inl (ValueError (join newline
                (duplicate_report
                   (keys_of (zip (config_files w conf_path patterns)
                                 trees)))))))
  ∨ (is_dir w conf_path = true
     ∧ ∃ trees,
         all_parsed w (config_files w conf_path patterns) trees
         ∧ map_disjoint_list trees
         ∧ load_and_merge_dir_config w conf_path patterns
           = (scan_trace w conf_path patterns
                ++ (EvLoad <$> config_files w conf_path patterns)
                ++ (if decide (2 ≤ length trees)%nat
                    then [EvMerge (length trees)] else []),
              inr (⋃ trees))).
Proof.
  intros Hok. destruct (is_dir w conf_path) eqn:Hdir.
  2:{ left. split; [done|]. by apply load_dir_missing. }
  right.
  destruct (parse_split w (config_files w conf_path patterns))
    as [[trees Hp]|(pre & g & post & trees & mark & Hfiles & Hp & Hg)].
  2:{ left. split; [done|]. exists pre, g, post, trees, mark.
      repeat (split; [done|]).
      by apply (load_dir_parse_error w conf_path patterns pre g post trees). }
  right.
  destruct (decide (duplicate_report
                      (keys_of (zip (config_files w conf_path patterns) trees))
                    = [])) as [Hrep|Hrep].
  - right. split; [done|]. exists trees.
    apply map_disjoint_list_report in Hrep.
    rewrite snd_zip in Hrep by (by rewrite (all_parsed_length w _ trees Hp)).
    repeat (split; [done|]).
    rewrite (load_dir_merged w conf_path patterns trees) by done.
    by rewrite OmegaConf_merge_disjoint.
  - left. split; [done|]. exists trees.
    assert (¬ map_disjoint_list trees) as Hnd.
    { intros Hd. apply Hrep. apply map_disjoint_list_report.
      by rewrite snd_zip by (by rewrite (all_parsed_length w _ trees Hp)). }
    repeat (split; [done|]). by apply load_dir_duplicates.
Qed.

Lemma fmap_Parsed_inj (trees trees' : list Tree) :
  Parsed <$> trees = Parsed <$> trees' → trees = trees'.
Proof.
  revert trees'. induction trees as [|t trees IH]; intros [|t' trees'] H;
    try done.
  rewrite !fmap_cons in H. injection H as Ht H. subst t'. f_equal.
  by apply IH.
Qed.

Lemma all_parsed_unique w files trees trees' :
  all_parsed w files trees → all_parsed w files trees' → trees = trees'.
Proof.
  unfold all_parsed. intros H1 H2. rewrite H1 in H2.
  by apply fmap_Parsed_inj.
Qed.

Lemma all_parsed_app_inv w pre post trees :
  all_parsed w (pre ++ post) trees →
  ∃ trees1 trees2, all_parsed w pre trees1 ∧ all_parsed w post trees2.
Proof.
  revert trees. induction pre as [|f pre IH]; intros trees Hp.
  - by exists [], trees.
  - apply all_parsed_cons_inv in Hp as (t & trees' & -> & Hf & Hp).
    destruct (IH trees' Hp) as (trees1 & trees2 & H1 & H2).
    exists (t :: trees1), trees2. split; [|done].
    unfold all_parsed in *. by rewrite !fmap_cons, Hf, H1.
Qed.




(** ** The events of a directory load *)

Lemma loads_app tr1 tr2 : loads (tr1 ++ tr2) = loads tr1 ++ loads tr2.
Proof. apply omap_app. Qed.

Lemma loads_load_events files : loads (EvLoad <$> files) = files.
Proof.
  induction files as [|f files IH]; [done|].
  rewrite fmap_cons. change (f :: loads (EvLoad <$> files) = f :: files).
  by rewrite IH.
Qed.

Lemma loads_scan_trace w conf_path patterns :
  loads (scan_trace w conf_path patterns) = [].
Proof.
  unfold scan_trace, expand_trace.
  rewrite app_comm_cons, loads_app.
  assert (∀ l, loads (EvIsFile <$> l) = []) as ->
    by (induction l as [|x l IH]; [done|exact IH]).
  rewrite app_nil_r. change (loads (EvIsDir conf_path :: ?tr)) with (loads tr).
  induction patterns as [|pattern patterns IH]; [done|].
  rewrite bind_cons, loads_app, IH, app_nil_r.
  change (loads (EvGlob ?x :: ?tr)) with (loads tr).
  induction (iglob w _) as [|x l IH']; [done|exact IH'].
Qed.

Lemma elem_of_scan_trace w conf_path patterns ev :
  ev ∈ scan_trace w conf_path patterns →
  ev = EvIsDir conf_path
  ∨ (∃ x, ev = EvGlob x) ∨ (∃ x, ev = EvResolve x) ∨ (∃ x, ev = EvIsFile x).
Proof.
  unfold scan_trace, expand_trace.
  rewrite elem_of_cons, elem_of_app, list_elem_of_bind, list_elem_of_fmap.
  intros [->|[(pat & Hin & _)|(x & -> & _)]]; [by left| |by eauto 10].
  apply elem_of_cons in Hin as [->|(x & -> & _)%list_elem_of_fmap];
    by eauto 10.
Qed.

(** Every event of a directory load is the directory test, a pattern
    expansion, a path resolution, a file test, the load of a qualifying
    file, or the one merge. *)
Lemma load_dir_trace_events w conf_path patterns ev :
  set_iter_ok w →
  ev ∈ trace (load_and_merge_dir_config w conf_path patterns) →
  ev = EvIsDir conf_path
  ∨ (∃ x, ev = EvGlob x) ∨ (∃ x, ev = EvResolve x) ∨ (∃ x, ev = EvIsFile x)
  ∨ (∃ x, ev = EvLoad x) ∨ (∃ n, ev = EvMerge n).
Proof.
  intros Hok.
  destruct (load_dir_cases w conf_path patterns Hok)
    as [(Hdir & Hl)
       |[(Hdir & pre & g & post & trees & mark & Hfiles & Hp & Hg & Hl)
        |[(Hdir & trees & Hp & Hnd & Hl)|(Hdir & trees & Hp & Hd & Hl)]]];
    rewrite Hl; unfold trace; cbn [fst].
  - intros ->%list_elem_of_singleton. by left.
  - rewrite elem_of_app, list_elem_of_fmap.
    intros [H%elem_of_scan_trace|(x & -> & _)]; [|by eauto 10].
    destruct H as [?|[?|[?|?]]]; by eauto 10.
  - rewrite elem_of_app, list_elem_of_fmap.
    intros [H%elem_of_scan_trace|(x & -> & _)]; [|by eauto 10].
    destruct H as [?|[?|[?|?]]]; by eauto 10.
  - rewrite !elem_of_app, list_elem_of_fmap.
    intros [H%elem_of_scan_trace|[(x & -> & _)|H]]; [|by eauto 10|].
    + destruct H as [?|[?|[?|?]]]; by eauto 10.
    + destruct (decide (2 ≤ length trees)%nat); [|by apply elem_of_nil in H].
      apply list_elem_of_singleton in H as ->. by eauto 10.
Qed.

Lemma elem_of_candidates w conf_path patterns f :
  f ∈ candidates w conf_path patterns ↔
  ∃ pattern each,
    pattern ∈ patterns ∧ each ∈ iglob w (conf_path +:+ "/" +:+ pattern)
    ∧ f = resolve w each.
Proof.
  unfold candidates. rewrite list_elem_of_bind. split.
  - intros (pattern & (each & -> & Hin)%list_elem_of_fmap & Hpat).
    by exists pattern, each.
  - intros (pattern & each & Hpat & Hin & ->). exists pattern.
    split; [|done]. apply list_elem_of_fmap. by exists each.
Qed.

Lemma elem_of_config_files w conf_path patterns f :
  set_iter_ok w →
  f ∈ config_files w conf_path patterns ↔
  f ∈ candidates w conf_path patterns ∧ valid_path w f = true.
Proof.
  intros Hok. unfold config_files.
  rewrite list_elem_of_filter, (Hok _), elem_of_elements, elem_of_list_to_set.
  rewrite Is_true_true. tauto.
Qed.

Lemma NoDup_app_prefix {A} (l k : list A) : NoDup (l ++ k) → NoDup l.
Proof. by intros (? & _ & _)%NoDup_app. Qed.

(** X2: the files a directory load hands to the parser are distinct, so a
    file matched by several patterns is parsed once; each of them is the
    resolved form of a match of one of the patterns, is a regular file and
    has the suffix [.yml], [.yaml] or [.json]. *)
Theorem loaded_files_are_distinct_config_files (w : World)
    (conf_path : string) (patterns : list string) :
  set_iter_ok w →
  let loaded := loads (trace (load_and_merge_dir_config w conf_path patterns)) in
  NoDup loaded
  ∧ ∀ f, f ∈ loaded →
      (∃ pattern each,
         pattern ∈ patterns ∧ each ∈ iglob w (conf_path +:+ "/" +:+ pattern)
         ∧ f = resolve w each)
      ∧ is_file w f = true
      ∧ suffix w f ∈ [".yml"; ".yaml"; ".json"].
Proof.
  intros Hok loaded.
  assert (∃ pre post, loaded = pre
                      ∧ (pre = [] ∨ config_files w conf_path patterns = pre ++ post))
    as (pre & post & Hloaded & Hpre).
  { unfold loaded.
    destruct (load_dir_cases w conf_path patterns Hok)
      as [(Hdir & Hl)
         |[(Hdir & pre & g & post & trees & mark & Hfiles & Hp & Hg & Hl)
          |[(Hdir & trees & Hp & Hnd & Hl)|(Hdir & trees & Hp & Hd & Hl)]]];
      rewrite Hl; unfold trace; cbn [fst].
    - exists [], []. split; [done|by left].
    - exists (pre ++ [g]), post.
      rewrite loads_app, loads_scan_trace, loads_load_events.
      split; [done|]. right. by rewrite <-app_assoc.
    - exists (config_files w conf_path patterns), [].
      rewrite loads_app, loads_scan_trace, loads_load_events.
      split; [done|]. right. by rewrite app_nil_r.
    - exists (config_files w conf_path patterns), [].
      rewrite !loads_app, loads_scan_trace, loads_load_events.
      split; [|right; by rewrite app_nil_r].
      destruct (decide (2 ≤ length trees)%nat); simpl; by rewrite app_nil_r. }
  rewrite Hloaded. destruct Hpre as [->|Hfiles].
  { split; [apply NoDup_nil_2|]. by intros f ?%elem_of_nil. }
  pose proof (config_files_NoDup w conf_path patterns Hok) as Hnd.
  rewrite Hfiles in Hnd. split; [by apply NoDup_app_prefix in Hnd|].
  intros f Hin.
  assert (f ∈ config_files w conf_path patterns) as Hf
    by (rewrite Hfiles, elem_of_app; by left).
  apply elem_of_config_files in Hf as [Hcand Hvalid]; [|done].
  apply elem_of_candidates in Hcand. unfold valid_path in Hvalid.
  apply andb_true_iff in Hvalid as [Hfile Hsuf].
  split; [done|]. split; [done|]. by apply bool_decide_eq_true in Hsuf.
Qed.

Lemma loaded_files_are_distinct_config_files_witness :
  NoDup (loads (trace (load_and_merge_dir_config mixed_world "conf/base"
                         ["catalog*"; "catalog*/**"; "**/catalog*"])))
  ∧ loads (trace (load_and_merge_dir_config mixed_world "conf/base"
                    ["catalog*"; "catalog*/**"; "**/catalog*"]))
    = ["conf/base/catalog.yml"].
Proof.
  split.
  - apply (loaded_files_are_distinct_config_files mixed_world "conf/base"
             ["catalog*"; "catalog*/**"; "**/catalog*"]).
    apply table_world_elements_ok.
  - vm_compute. reflexivity.
Defined.

(** X6: [OmegaConf.merge] is run in a directory load exactly when the
    directory exists, all its qualifying files parse, there are at least two
    of them and no two share a top-level key; the merge then takes all of
    them.  With no file or a single file, and after any error, nothing is
    merged. *)
Theorem merge_runs_only_on_two_or_more_disjoint_trees (w : World)
    (conf_path : string) (patterns : list string) (n : nat) :
  set_iter_ok w →
  EvMerge n ∈ trace (load_and_merge_dir_config w conf_path patterns) ↔
  is_dir w conf_path = true
  ∧ (2 ≤ n)%nat
  ∧ ∃ trees,
      all_parsed w (config_files w conf_path patterns) trees
      ∧ map_disjoint_list trees ∧ length trees = n.
Proof.
  intros Hok.
  pose proof (scan_and_load_no_merge w conf_path patterns) as Hscan.
  destruct (load_dir_cases w conf_path patterns Hok)
    as [(Hdir & Hl)
       |[(Hdir & pre & g & post & trees & mark & Hfiles & Hp & Hg & Hl)
        |[(Hdir & trees & Hp & Hnd & Hl)|(Hdir & trees & Hp & Hd & Hl)]]];
    rewrite Hl; unfold trace; cbn [fst]; rewrite Hdir.
  - split; [|by intros [? _]]. by intros ?%list_elem_of_singleton.
  - split; [by intros ?%Hscan|].
    intros (_ & _ & trees' & Hp' & _). rewrite Hfiles in Hp'.
    apply all_parsed_app_inv in Hp' as (_ & trees2 & _ & H2).
    apply all_parsed_cons_inv in H2 as (t & _ & _ & Ht & _). congruence.
  - split; [by intros ?%Hscan|].
    intros (_ & _ & trees' & Hp' & Hd' & _).
    by rewrite (all_parsed_unique w _ _ _ Hp' Hp) in Hd'.
  - rewrite app_assoc, elem_of_app. split.
    + intros [?%Hscan|Hin]; [done|].
      destruct (decide (2 ≤ length trees)%nat); [|by apply elem_of_nil in Hin].
      apply list_elem_of_singleton in Hin as [= ->].
      split; [done|]. split; [done|]. by exists trees.
    + intros (_ & Hn & trees' & Hp' & _ & <-).
      rewrite (all_parsed_unique w _ _ _ Hp' Hp) in Hn |- *.
      right. rewrite decide_True by done. by apply list_elem_of_singleton.
Qed.

Lemma merge_runs_only_on_two_or_more_disjoint_trees_witness :
  EvMerge 2 ∈ trace (load_and_merge_dir_config split_world "conf/base"
                       ["catalog*"; "catalog*/**"; "**/catalog*"])
  ∧ EvMerge 1 ∉ trace (load_and_merge_dir_config layered_world "conf/base"
                         ["catalog*"; "catalog*/**"; "**/catalog*"]).
Proof.
  split.
  - apply (merge_runs_only_on_two_or_more_disjoint_trees split_world
             "conf/base" ["catalog*"; "catalog*/**"; "**/catalog*"] 2
             (table_world_elements_ok _ _ _)).
    split; [reflexivity|]. split; [lia|].
    exists [ {[ "a" := VInt 1 ]}; {[ "b" := VDict {[ "x" := VInt 2 ]} ]} ].
    split; [vm_compute; reflexivity|]. split; [|reflexivity].
    intros [|[|i]] [|[|j]] t1 t2 Hij Hi Hj; try done;
      simpl in Hi, Hj; simplify_eq;
      apply map_disjoint_dom, disjoint_intersection_L; vm_compute; reflexivity.
  - intros Hin.
    apply (merge_runs_only_on_two_or_more_disjoint_trees layered_world
             "conf/base" ["catalog*"; "catalog*/**"; "**/catalog*"] 1
             (table_world_elements_ok _ _ _)) in Hin as (_ & Hn & _).
    lia.
Defined.

(** ** The pattern list *)




(** ** The order of the two directories *)

(** X8: when the load of the base directory raises, the lookup is the load
    of the base directory and nothing more: it raises the same exception
    after the same events, and the environment directory (when it is another
    path) is not even tested for existence. *)
Theorem base_failure_leaves_environment_untouched (w : World)
    (self : OmegaConfLoader) (key : string) (patterns : list string)
    (e : Exn) :
  set_iter_ok w →
  preset_value self key = None → config_patterns self !! key = Some patterns →
  outcome (load_and_merge_dir_config w (base_path w self) patterns) = inl e →
  __getitem__ w self key
  = load_and_merge_dir_config w (base_path w self) patterns
  ∧ (base_path w self ≠ env_path w self →
     EvIsDir (env_path w self) ∉ trace (__getitem__ w self key)).
Proof.
  intros Hok Hdata Hpat Hb.
  assert (__getitem__ w self key
          = load_and_merge_dir_config w (base_path w self) patterns) as Hget.
  { rewrite (getitem_base_raises w self key patterns e) by done.
    destruct (load_and_merge_dir_config _ _ _) as [tr r].
    unfold outcome in Hb. simpl in Hb. by rewrite Hb. }
  split; [done|]. intros Hne Hin. rewrite Hget in Hin.
  apply load_dir_trace_events in Hin; [|done].
  destruct Hin as [[= ?]|[[? ?]|[[? ?]|[[? ?]|[[? ?]|[? ?]]]]]]; done.
Qed.

Lemma base_failure_leaves_environment_untouched_witness :
  __getitem__ malformed_world project_loader "catalog"
  = load_and_merge_dir_config malformed_world "conf/base"
      ["catalog*"; "catalog*/**"; "**/catalog*"]
  ∧ EvIsDir "conf/local"
    ∉ trace (__getitem__ malformed_world project_loader "catalog").
Proof.
  destruct (base_failure_leaves_environment_untouched malformed_world
              project_loader "catalog"
              ["catalog*"; "catalog*/**"; "**/catalog*"]
              (ParserError
                 "Invalid YAML or JSON file conf/base/catalog.yml, unable to read line 0, position 4.")
              (table_world_elements_ok _ _ _) eq_refl eq_refl)
    as [Heq Hno].
  - vm_compute. reflexivity.
  - split; [exact Heq|]. apply Hno. vm_compute. discriminate.
Defined.



(** ** The exceptions of a lookup *)

Lemma load_dir_exception w conf_path patterns e :
  set_iter_ok w →
  outcome (load_and_merge_dir_config w conf_path patterns) = inl e →
  (∃ msg, e = MissingConfigException msg) ∨ (∃ msg, e = ParserError msg)
  ∨ (∃ msg, e = ValueError msg).
Proof.
  intros Hok.
  destruct (load_dir_cases w conf_path patterns Hok)
    as [(Hdir & Hl)
       |[(Hdir & pre & g & post & trees & mark & Hfiles & Hp & Hg & Hl)
        |[(Hdir & trees & Hp & Hnd & Hl)|(Hdir & trees & Hp & Hd & Hl)]]];
    rewrite Hl; unfold outcome; cbn [snd]; intros [= <-]; eauto.
Qed.

Lemma getitem_key_error_iff w self key :
  set_iter_ok w →
  is_key_error (outcome (__getitem__ w self key)) ↔
  preset_value self key = None ∧ config_patterns self !! key = None.
Proof.
  intros Hok. unfold is_key_error. split.
  - intros [msg Hget].
    destruct (preset_value self key) as [value|] eqn:Hdata.
    { by rewrite (getitem_preset w self key value) in Hget. }
    split; [done|].
    destruct (config_patterns self !! key) as [patterns|] eqn:Hpat; [|done].
    exfalso.
    destruct (outcome (load_and_merge_dir_config w (base_path w self) patterns))
      as [e|base_config] eqn:Hb.
    { rewrite (getitem_base_raises w self key patterns e) in Hget by done.
      injection Hget as ->.
      apply load_dir_exception in Hb as [[? ?]|[[? ?]|[? ?]]]; done. }
    destruct (outcome (load_and_merge_dir_config w (env_path w self) patterns))
      as [e|env_config] eqn:He.
    { rewrite (getitem_env_raises w self key patterns base_config e) in Hget
        by done.
      injection Hget as ->.
      apply load_dir_exception in He as [[? ?]|[[? ?]|[? ?]]]; done. }
    rewrite (getitem_composed w self key patterns base_config env_config)
      in Hget by done.
    unfold outcome in Hget. cbn [snd] in Hget.
    by destruct (decide (update base_config env_config = ∅)).
  - intros [Hdata Hpat]. rewrite getitem_unknown by done. eauto.
Qed.



(** ** The pattern table of a new loader *)

(** X1: a loader built with custom patterns looks a key up under the custom
    list when the caller gave one (the default list of that key is replaced,
    not extended) and under the default list otherwise, and has no value set;
    so on a new loader a lookup raises the unknown-key error exactly for the
    keys that are neither among the caller's nor one of [catalog],
    [parameters], [credentials] and [logging]. *)
Theorem new_loader_pattern_table (w : World) (conf_source : string)
    (env : option string) (custom : option (gmap string (list string)))
    (base_env default_run_env : string) (key : string) :
  set_iter_ok w →
  let self := __init__ conf_source env custom base_env default_run_env in
  let given := default (∅ : gmap string (list string)) custom in
  (∀ patterns, given !! key = Some patterns →
               config_patterns self !! key = Some patterns)
  ∧ (given !! key = None →
     config_patterns self !! key = default_patterns !! key)
  ∧ (is_key_error (outcome (__getitem__ w self key)) ↔
     given !! key = None
     ∧ key ∉ ["catalog"; "parameters"; "credentials"; "logging"]).
Proof.
  intros Hok self given.
  assert (∀ patterns, given !! key = Some patterns →
                      config_patterns self !! key = Some patterns) as H1.
  { intros patterns Hk. unfold self, __init__. cbn [config_patterns].
    by apply lookup_union_Some_l. }
  assert (given !! key = None →
          config_patterns self !! key = default_patterns !! key) as H2.
  { intros Hk. unfold self, __init__. cbn [config_patterns].
    by apply lookup_union_r. }
  split; [done|]. split; [done|].
  rewrite getitem_key_error_iff by done.
  assert (default_patterns !! key = None ↔
          key ∉ ["catalog"; "parameters"; "credentials"; "logging"]) as Hdef.
  { rewrite <-not_elem_of_dom.
    assert (dom default_patterns
            = (list_to_set ["catalog"; "parameters"; "credentials"; "logging"]
               : gset string)) as -> by (vm_compute; reflexivity).
    by rewrite elem_of_list_to_set. }
  split.
  - intros [_ Hpat]. destruct (given !! key) as [patterns|] eqn:Hk.
    + by rewrite (H1 patterns) in Hpat.
    + split; [done|]. apply Hdef. by rewrite <-H2.
  - intros [Hk Hnot]. split; [done|]. rewrite H2 by done. by apply Hdef.
Qed.

Lemma new_loader_pattern_table_witness :
  config_patterns
    (__init__ "conf" None (Some {[ "catalog" := ["data*"] ]}) "base" "local")
    !! "catalog" = Some ["data*"]
  ∧ is_key_error (outcome (__getitem__ empty_world project_loader "spark")).
Proof.
  split.
  - apply (new_loader_pattern_table empty_world "conf" None
             (Some {[ "catalog" := ["data*"] ]}) "base" "local" "catalog"
             (table_world_elements_ok _ _ _)).
    reflexivity.
  - apply (new_loader_pattern_table empty_world "conf" None None "base" "local"
             "spark" (table_world_elements_ok _ _ _)).
    split; [reflexivity|]. rewrite !elem_of_cons, elem_of_nil.
    intros [H|[H|[H|[H|[]]]]]; discriminate H.
Defined.

(** ** [_check_duplicates] on its own *)





(** ** The key text of a duplicate message *)

Lemma length_append (s1 s2 : string) :
  String.length (s1 +:+ s2) = String.length s1 + String.length s2.
Proof. induction s1 as [|c s1 IH]; simpl; [done|]. by rewrite IH. Qed.

Lemma length_str_prefix (n : nat) (s : string) :
  String.length (str_prefix n s) = n `min` String.length s.
Proof.
  unfold str_prefix. revert s. induction n as [|n IH]; intros [|c s]; simpl;
    try done.
  by rewrite IH.
Qed.

Lemma substring_full (s : string) : String.substring 0 (String.length s) s = s.
Proof. induction s as [|c s IH]; simpl; [done|]. by rewrite IH. Qed.

Lemma str_prefix_split (n : nat) (s : string) :
  (n ≤ String.length s)%nat →
  s = str_prefix n s +:+ String.substring n (String.length s - n) s.
Proof.
  unfold str_prefix. revert s. induction n as [|n IH]; intros s Hn.
  - rewrite Nat.sub_0_r, substring_full. by destruct s.
  - destruct s as [|c s]; simpl in Hn; [lia|]. simpl.
    change (String c s
            = String c (String.substring 0 n s
                          +:+ String.substring n (String.length s - n) s)).
    f_equal. apply IH. lia.
Qed.

(** X4: however many keys two files share, the key text of their message
    is at most 103 characters long.  A joined key list of at most 100
    characters is printed in full; a longer one is printed as its first 100
    characters followed by three dots, 103 characters in all. *)
Theorem overlap_text_is_bounded (keys : gset string) :
  (String.length (overlap_text keys) ≤ 103)%nat
  ∧ ((String.length (join ", " (sorted keys)) ≤ 100)%nat →
     overlap_text keys = join ", " (sorted keys))
  ∧ (100 < String.length (join ", " (sorted keys)) →
     String.length (overlap_text keys) = 103
     ∧ ∃ rest, join ", " (sorted keys)
               = str_prefix 100 (join ", " (sorted keys)) +:+ rest
               ∧ overlap_text keys
                 = str_prefix 100 (join ", " (sorted keys)) +:+ "...").
Proof.
  unfold overlap_text. cbn zeta.
  destruct (decide (100 < String.length (join ", " (sorted keys))))
    as [Hlong|Hshort].
  - assert (String.length (str_prefix 100 (join ", " (sorted keys)) +:+ "...")
            = 103) as Hlen.
    { rewrite length_append, length_str_prefix.
      change (String.length "...") with 3. lia. }
    split; [lia|]. split; [lia|]. intros _. split; [done|].
    exists (String.substring 100 (String.length (join ", " (sorted keys)) - 100)
              (join ", " (sorted keys))).
    split; [|done]. apply str_prefix_split. lia.
  - split; [lia|]. split; [done|]. lia.
Qed.

Lemma overlap_text_is_bounded_witness :
  String.length (overlap_text long_keys) = 103
  ∧ overlap_text {[ "boats"; "cars" ]} = "boats, cars".
Proof.
  split.
  - apply (overlap_text_is_bounded long_keys). vm_compute. lia.
  - destruct (overlap_text_is_bounded {[ "boats"; "cars" ]}) as (_ & H & _).
    rewrite H; vm_compute; [reflexivity|lia].
Defined.

(** ** Stopping at the first malformed file *)

(** X11: the loop over the files stops at the first file that does not
    parse: the files before it (in iteration order) and that file are the
    only ones handed to the parser, no file after it is, and nothing is
    merged. *)
Theorem loading_stops_at_first_malformed_file (w : World)
    (conf_path : string) (patterns : list string) (pre post : list string)
    (g : string) (trees : list Tree) (mark : Mark) :
  set_iter_ok w → is_dir w conf_path = true →
  config_files w conf_path patterns = pre ++ g :: post →
  all_parsed w pre trees → load w g = YamlError mark →
  loads (trace (load_and_merge_dir_config w conf_path patterns)) = pre ++ [g]
  ∧ (∀ f, f ∈ post →
       EvLoad f ∉ trace (load_and_merge_dir_config w conf_path patterns))
  ∧ (∀ n, EvMerge n ∉ trace (load_and_merge_dir_config w conf_path patterns)).
Proof.
  intros Hok Hdir Hfiles Hp Hg.
  rewrite (load_dir_parse_error w conf_path patterns pre g post trees mark)
    by done.
  unfold trace. cbn [fst]. split; [|split].
  - by rewrite loads_app, loads_scan_trace, loads_load_events.
  - intros f Hpost Hin.
    pose proof (config_files_NoDup w conf_path patterns Hok) as Hnd.
    rewrite Hfiles, cons_middle, app_assoc in Hnd.
    apply NoDup_app in Hnd as (_ & Hdisj & _).
    apply (Hdisj f); [|done].
    apply elem_of_app in Hin as [Hin|Hin].
    + apply elem_of_scan_trace in Hin as [?|[[? ?]|[[? ?]|[? ?]]]]; done.
    + apply list_elem_of_fmap in Hin as (x & [= ->] & Hx). done.
  - intros n. apply scan_and_load_no_merge.
Qed.

Lemma loading_stops_at_first_malformed_file_witness :
  loads (trace (load_and_merge_dir_config half_broken_world "conf/base"
                  ["catalog*"; "catalog*/**"; "**/catalog*"]))
  = ["conf/base/catalog_c.yml"] ++ ["conf/base/catalog_a.yml"]
  ∧ EvLoad "conf/base/catalog_b.yml"
    ∉ trace (load_and_merge_dir_config half_broken_world "conf/base"
               ["catalog*"; "catalog*/**"; "**/catalog*"]).
Proof.
  destruct (loading_stops_at_first_malformed_file half_broken_world
              "conf/base" ["catalog*"; "catalog*/**"; "**/catalog*"]
              ["conf/base/catalog_c.yml"] ["conf/base/catalog_b.yml"]
              "conf/base/catalog_a.yml" [ {[ "c" := VInt 2 ]} ]
              {| line := 3; column := 0 |}
              (table_world_elements_ok _ _ _) eq_refl) as (Hloads & Hpost & _).
  - vm_compute. reflexivity.
  - reflexivity.
  - reflexivity.
  - split; [exact Hloads|]. apply Hpost. by apply list_elem_of_singleton.
Defined.
